(** * Ecosoul landing page: the stateful controller of [EcosoulLanding.jsx]

    A shallow embedding of the React component [EcosoulLanding] (and of its
    child [JournalForm]) together with the part of the browser it talks to:
    [localStorage], timers, object URLs, [alert] and speech synthesis.

    - JavaScript strings are sequences of UTF-16 code units ([list N]);
      [length], [slice] and [trim] work on code units, as in the language.
    - Each event handler is a function on [World]; React applies the state
      updates of one handler and runs the effects whose dependencies changed
      before the next event is handled, so a handler is one atomic step.
    - Values the handlers read from outside ([Math.random], [Date.now], the
      picked files) are arguments of the handlers. *)

From Corelib Require Import PrimFloat.
From Stdlib Require Import ZArith NArith List Ascii String Uint63 Lia.
From Stdlib Require Import DecimalString DecimalZ.
From stdpp Require Import gmap list.
Import ListNotations.

Local Open Scope Z_scope.

(** ** JavaScript strings *)

Abbreviation jsstring := (list N).

(** An ASCII literal of the source, as code units. *)
Definition lit (s : string) : jsstring :=
  map N_of_ascii (list_ascii_of_string s).

Definition EM_DASH : N := 0x2014%N.
Definition ELLIPSIS : N := 0x2026%N.

(** [String.prototype.slice]: a negative index counts from the end, both
    indices are clamped to the string. *)
Definition rel_index (len k : Z) : Z :=
  if k <? 0 then Z.max (len + k) 0 else Z.min k len.

Definition slice (s : jsstring) (start end_ : Z) : jsstring :=
  let len := Z.of_nat (length s) in
  let from := rel_index len start in
  let to := rel_index len end_ in
  take (Z.to_nat (to - from)) (drop (Z.to_nat from) s).

(** WhiteSpace and LineTerminator code points of ECMAScript, the ones
    [String.prototype.trim] strips. *)
Definition isWhiteSpace (c : N) : bool :=
  ((9 <=? c) && (c <=? 13) || (c =? 32) || (c =? 0xA0) || (c =? 0x1680)
   || (0x2000 <=? c) && (c <=? 0x200A) || (c =? 0x2028) || (c =? 0x2029)
   || (c =? 0x202F) || (c =? 0x205F) || (c =? 0x3000) || (c =? 0xFEFF))%N.

Fixpoint trimStart (s : jsstring) : jsstring :=
  match s with
  | c :: s' => if isWhiteSpace c then trimStart s' else s
  | [] => []
  end.

Definition trimEnd (s : jsstring) : jsstring := rev (trimStart (rev s)).

Definition trim (s : jsstring) : jsstring := trimEnd (trimStart s).

(** [String.prototype.toLowerCase] on Basic Latin and Latin-1; code units
    outside these blocks are left as they are (the full Unicode case mapping
    is not modelled; only [createStory] uses it). *)
Definition lowerUnit (c : N) : N :=
  (if (0x41 <=? c) && (c <=? 0x5A) then c + 32
   else if (0xC0 <=? c) && (c <=? 0xDE) && negb (c =? 0xD7) then c + 32
   else c)%N.

Definition toLowerCase (s : jsstring) : jsstring := map lowerUnit s.

(** Decimal text of an integer, as [Number.prototype.toString] prints it. *)
Definition decimal (z : Z) : jsstring :=
  lit (NilEmpty.string_of_int (Z.to_int z)).

(** ** JSON *)

#[local] Set Warnings "-register-all".

Inductive JSValue :=
| JNull
| JBool (b : bool)
| JNumber (lexeme : jsstring)
| JString (s : jsstring)
| JArray (items : list JSValue)
| JObject (fields : list (jsstring * JSValue)).

(** *** [JSON.stringify] *)

Definition hexDigit (n : N) : N :=
  (if n <? 10 then 0x30 + n else 0x61 + (n - 10))%N.

Definition hex4 (c : N) : jsstring :=
  [hexDigit (c / 4096 mod 16); hexDigit (c / 256 mod 16);
   hexDigit (c / 16 mod 16); hexDigit (c mod 16)]%N.

(** QuoteJSONString on one code unit that is not part of a surrogate pair:
    the short escapes, [\uXXXX] for the other control characters and for a
    lone surrogate, the unit itself otherwise. *)
Definition quoteUnit (c : N) : jsstring :=
  (if c =? 0x22 then [0x5C; 0x22]
   else if c =? 0x5C then [0x5C; 0x5C]
   else if c =? 8 then lit "\b"
   else if c =? 9 then lit "\t"
   else if c =? 10 then lit "\n"
   else if c =? 12 then lit "\f"
   else if c =? 13 then lit "\r"
   else if (c <? 0x20) || (0xD800 <=? c) && (c <=? 0xDFFF)
        then lit "\u" ++ hex4 c
   else [c])%N.

Definition isLeadSurrogate (c : N) : bool := ((0xD800 <=? c) && (c <=? 0xDBFF))%N.
Definition isTrailSurrogate (c : N) : bool := ((0xDC00 <=? c) && (c <=? 0xDFFF))%N.

(** A lead surrogate followed by a trail surrogate is one code point and is
    printed as it is. *)
Fixpoint quoteUnits (s : jsstring) : jsstring :=
  match s with
  | [] => []
  | c :: rest =>
      match rest with
      | d :: rest' =>
          if isLeadSurrogate c && isTrailSurrogate d
          then c :: d :: quoteUnits rest'
          else quoteUnit c ++ quoteUnits rest
      | [] => quoteUnit c
      end
  end.

Definition quote (s : jsstring) : jsstring :=
  [0x22%N] ++ quoteUnits s ++ [0x22%N].

Fixpoint joinComma (parts : list jsstring) : jsstring :=
  match parts with
  | [] => []
  | [p] => p
  | p :: ps => p ++ [0x2C%N] ++ joinComma ps
  end.

Fixpoint JSON_stringify (v : JSValue) : jsstring :=
  match v with
  | JNull => lit "null"
  | JBool true => lit "true"
  | JBool false => lit "false"
  | JNumber lexeme => lexeme
  | JString s => quote s
  | JArray items => lit "[" ++ joinComma (map JSON_stringify items) ++ lit "]"
  | JObject fields =>
      lit "{"
      ++ joinComma (map (fun '(k, x) => quote k ++ lit ":" ++ JSON_stringify x)
                        fields)
      ++ lit "}"
  end.

(** *** [JSON.parse]

    A recursive-descent reader of the JSON grammar (ECMA-404).  [None] is the
    [SyntaxError] of [JSON.parse].  A number keeps its lexeme; an object keeps
    its members in source order. *)

Definition isJSONSpace (c : N) : bool :=
  ((c =? 0x20) || (c =? 9) || (c =? 10) || (c =? 13))%N.

Fixpoint skipSpace (s : jsstring) : jsstring :=
  match s with
  | c :: s' => if isJSONSpace c then skipSpace s' else s
  | [] => []
  end.

Definition isDigit (c : N) : bool := ((0x30 <=? c) && (c <=? 0x39))%N.

Definition hexValue (c : N) : option N :=
  (if isDigit c then Some (c - 0x30)
   else if (0x61 <=? c) && (c <=? 0x66) then Some (c - 0x61 + 10)
   else if (0x41 <=? c) && (c <=? 0x46) then Some (c - 0x41 + 10)
   else None)%N.

Definition unescape (e : N) : option N :=
  (if e =? 0x22 then Some 0x22
   else if e =? 0x5C then Some 0x5C
   else if e =? 0x2F then Some 0x2F
   else if e =? 0x62 then Some 8
   else if e =? 0x66 then Some 12
   else if e =? 0x6E then Some 10
   else if e =? 0x72 then Some 13
   else if e =? 0x74 then Some 9
   else None)%N.

(** The characters of a string after its opening quote, up to the closing
    one: the content (in [acc], reversed) and the rest of the input. *)
Fixpoint parseChars (s acc : jsstring) {struct s}
  : option (jsstring * jsstring) :=
  match s with
  | [] => None
  | c :: rest =>
      if (c =? 0x22)%N then Some (rev acc, rest)
      else if (c =? 0x5C)%N then
        match rest with
        | [] => None
        | e :: rest1 =>
            if (e =? 0x75)%N then
              match rest1 with
              | h1 :: h2 :: h3 :: h4 :: rest2 =>
                  match hexValue h1, hexValue h2, hexValue h3, hexValue h4 with
                  | Some a, Some b, Some c', Some d =>
                      parseChars rest2
                        ((a * 4096 + b * 256 + c' * 16 + d)%N :: acc)
                  | _, _, _, _ => None
                  end
              | _ => None
              end
            else
              match unescape e with
              | Some u => parseChars rest1 (u :: acc)
              | None => None
              end
        end
      else if (c <? 0x20)%N then None
      else parseChars rest (c :: acc)
  end.

Fixpoint takeDigits (s : jsstring) : jsstring * jsstring :=
  match s with
  | c :: s' =>
      if isDigit c then let '(ds, r) := takeDigits s' in (c :: ds, r)
      else ([], s)
  | [] => ([], [])
  end.

Definition parseSign (s : jsstring) : jsstring * jsstring :=
  match s with
  | c :: r => if (c =? 0x2D)%N then ([c], r) else ([], s)
  | [] => ([], s)
  end.

Definition parseInt (s : jsstring) : option (jsstring * jsstring) :=
  match s with
  | d :: r =>
      if (d =? 0x30)%N then Some ([d], r)
      else if isDigit d then let '(ds, r') := takeDigits r in Some (d :: ds, r')
      else None
  | [] => None
  end.

Definition parseFrac (s : jsstring) : option (jsstring * jsstring) :=
  match s with
  | c :: r =>
      if (c =? 0x2E)%N then
        match takeDigits r with
        | ([], _) => None
        | (ds, r') => Some (c :: ds, r')
        end
      else Some ([], s)
  | [] => Some ([], s)
  end.

Definition parseExp (s : jsstring) : option (jsstring * jsstring) :=
  match s with
  | c :: r =>
      if ((c =? 0x65) || (c =? 0x45))%N then
        let '(sg, r1) :=
          match r with
          | p :: r0 =>
              if ((p =? 0x2B) || (p =? 0x2D))%N then ([p], r0) else ([], r)
          | [] => ([], r)
          end in
        match takeDigits r1 with
        | ([], _) => None
        | (ds, r') => Some (c :: sg ++ ds, r')
        end
      else Some ([], s)
  | [] => Some ([], s)
  end.

Definition parseNumber (s : jsstring) : option (jsstring * jsstring) :=
  let '(sg, s1) := parseSign s in
  match parseInt s1 with
  | None => None
  | Some (i, s2) =>
      match parseFrac s2 with
      | None => None
      | Some (f, s3) =>
          match parseExp s3 with
          | None => None
          | Some (e, s4) => Some (sg ++ i ++ f ++ e, s4)
          end
      end
  end.

Fixpoint stripPrefix (p s : jsstring) : option jsstring :=
  match p, s with
  | [], _ => Some s
  | a :: p', b :: s' => if (a =? b)%N then stripPrefix p' s' else None
  | _ :: _, [] => None
  end.

Definition parseLiteral (word : string) (v : JSValue) (s : jsstring)
  : option (JSValue * jsstring) :=
  match stripPrefix (lit word) s with
  | Some r => Some (v, r)
  | None => None
  end.

Fixpoint parseValue (fuel : nat) (s : jsstring) {struct fuel}
  : option (JSValue * jsstring) :=
  match fuel with
  | O => None
  | S fuel' =>
      match skipSpace s with
      | [] => None
      | c :: rest =>
          if (c =? 0x7B)%N then
            match skipSpace rest with
            | c' :: rest' =>
                if (c' =? 0x7D)%N then Some (JObject [], rest')
                else parseMembers fuel' (c' :: rest') []
            | [] => None
            end
          else if (c =? 0x5B)%N then
            match skipSpace rest with
            | c' :: rest' =>
                if (c' =? 0x5D)%N then Some (JArray [], rest')
                else parseElements fuel' (c' :: rest') []
            | [] => None
            end
          else if (c =? 0x22)%N then
            match parseChars rest [] with
            | Some (str, r) => Some (JString str, r)
            | None => None
            end
          else if (c =? 0x74)%N then parseLiteral "true" (JBool true) (c :: rest)
          else if (c =? 0x66)%N then parseLiteral "false" (JBool false) (c :: rest)
          else if (c =? 0x6E)%N then parseLiteral "null" JNull (c :: rest)
          else
            match parseNumber (c :: rest) with
            | Some (lexeme, r) => Some (JNumber lexeme, r)
            | None => None
            end
      end
  end

with parseElements (fuel : nat) (s : jsstring) (acc : list JSValue)
  {struct fuel} : option (JSValue * jsstring) :=
  match fuel with
  | O => None
  | S fuel' =>
      match parseValue fuel' s with
      | None => None
      | Some (v, r) =>
          match skipSpace r with
          | c :: r' =>
              if (c =? 0x2C)%N then parseElements fuel' r' (v :: acc)
              else if (c =? 0x5D)%N then Some (JArray (rev (v :: acc)), r')
              else None
          | [] => None
          end
      end
  end

with parseMembers (fuel : nat) (s : jsstring)
  (acc : list (jsstring * JSValue)) {struct fuel}
  : option (JSValue * jsstring) :=
  match fuel with
  | O => None
  | S fuel' =>
      match skipSpace s with
      | q :: s1 =>
          if (q =? 0x22)%N then
            match parseChars s1 [] with
            | None => None
            | Some (k, s2) =>
                match skipSpace s2 with
                | colon :: s3 =>
                    if (colon =? 0x3A)%N then
                      match parseValue fuel' s3 with
                      | None => None
                      | Some (v, r) =>
                          match skipSpace r with
                          | c :: r' =>
                              if (c =? 0x2C)%N
                              then parseMembers fuel' r' ((k, v) :: acc)
                              else if (c =? 0x7D)%N
                              then Some (JObject (rev ((k, v) :: acc)), r')
                              else None
                          | [] => None
                          end
                      end
                    else None
                | [] => None
                end
            end
          else None
      | [] => None
      end
  end.

(** Every call below the first reads at least one character before it
    descends again, and [parseElements]/[parseMembers] read at least two per
    round, so twice the length of the text is fuel enough
    ([JSON_parse_fuel]). *)
Definition JSON_parse (text : jsstring) : option JSValue :=
  match parseValue (2 * length text + 2) text with
  | Some (v, r) => match skipSpace r with [] => Some v | _ :: _ => None end
  | None => None
  end.

(** ** Completions: a value or a thrown exception *)

Inductive Exception := SyntaxError | SecurityError | TypeError.

Inductive Completion (A : Type) :=
| Normal (a : A)
| Throw (e : Exception).
Arguments Normal {A} a.
Arguments Throw {A} e.

Definition andThen {A B} (c : Completion A) (k : A -> Completion B)
  : Completion B :=
  match c with
  | Normal a => k a
  | Throw e => Throw e
  end.

(** [try { body } catch (e) { handler }] *)
Definition tryCatch {A} (body : Completion A) (handler : Exception -> Completion A)
  : Completion A :=
  match body with
  | Normal a => Normal a
  | Throw e => handler e
  end.

(** ** Reading the persisted collections (the two [useState] initialisers) *)

(** [localStorage] as a page sees it: the browser may deny access to it, and
    then every use throws. *)
Inductive Storage :=
| Denied
| Granted (items : gmap jsstring jsstring).

Definition getItem (st : Storage) (key : jsstring)
  : Completion (option jsstring) :=
  match st with
  | Denied => Throw SecurityError
  | Granted items => Normal (items !! key)
  end.

(** [x || d] for [x] a string or [null]: [null] and the empty string are
    falsy. *)
Definition orElse (x : option jsstring) (d : jsstring) : jsstring :=
  match x with
  | None => d
  | Some [] => d
  | Some (c :: s) => c :: s
  end.

Definition JSON_parse_or_throw (text : jsstring) : Completion JSValue :=
  match JSON_parse text with
  | Some v => Normal v
  | None => Throw SyntaxError
  end.

(** The body shared by the two initialisers:
    [try { return JSON.parse(localStorage.getItem(key) || "[]"); }
     catch (e) { return []; }] *)
Definition load (st : Storage) (key : jsstring) : Completion JSValue :=
  tryCatch
    (andThen (getItem st key)
             (fun x => JSON_parse_or_throw (orElse x (lit "[]"))))
    (fun _ => Normal (JArray [])).

Definition VOICE_KEY : jsstring := lit "ecosoul_voice_uploads".
Definition JOURNAL_KEY : jsstring := lit "ecosoul_journal".

Definition initVoiceUploads (st : Storage) : Completion JSValue :=
  load st VOICE_KEY.
Definition initJournalEntries (st : Storage) : Completion JSValue :=
  load st JOURNAL_KEY.

(** ** The records of the component *)

(** What the file picker hands over for one file. *)
Record File := { file_name : jsstring; file_size : Z }.

Module Upload.
(** [{ id, name, size, url (object URL), createdAt }] *)
Record t := mk {
  id : jsstring;
  name : jsstring;
  size : Z;
  url : jsstring;
  createdAt : Z
}.

Definition toJSON (v : t) : JSValue :=
  JObject [ (lit "id", JString (id v));
            (lit "name", JString (name v));
            (lit "size", JNumber (decimal (size v)));
            (lit "url", JString (url v));
            (lit "createdAt", JNumber (decimal (createdAt v))) ].
End Upload.

Inductive Sender := you | soul.

(** The greeting has the number [1] as its id, every other message a string
    made by [uid]. *)
Inductive MessageId :=
| IdNumber (n : Z)
| IdString (s : jsstring).

Module Message.
(** [{ id, from, text, time }] *)
Record t := mk {
  id : MessageId;
  from : Sender;
  text : jsstring;
  time : Z
}.
End Message.

Module Entry.
(** [{ id, title, body, createdAt }] *)
Record t := mk {
  id : jsstring;
  title : jsstring;
  body : jsstring;
  createdAt : Z
}.

Definition toJSON (e : t) : JSValue :=
  JObject [ (lit "id", JString (id e));
            (lit "title", JString (title e));
            (lit "body", JString (body e));
            (lit "createdAt", JNumber (decimal (createdAt e))) ].
End Entry.

(** ** The browser *)

(** A pending timer and what its callback closes over: the interval of
    [startHealing] owns the counter [cycle]; the timeout of [sendChat] holds
    the [chatInput] of the render that scheduled it. *)
Inductive Timer :=
| Interval (cycle : float)
| Timeout (input : jsstring).

Record Browser := mkBrowser {
  localStorage : gmap jsstring jsstring;
  timers : gmap N Timer;          (* the active timers, by id *)
  nextTimer : N;                  (* ids are handed out in increasing order *)
  objectURLs : gset jsstring;     (* the object URLs that are live *)
  nextObjectURL : N;
  revoked : list jsstring;        (* every call of URL.revokeObjectURL, latest first *)
  alerts : list jsstring;         (* every call of alert, latest first *)
  speechSynthesis : bool;         (* 'speechSynthesis' in window *)
  spoken : list jsstring          (* every utterance started, latest first *)
}.

Definition setItem (key value : jsstring) (b : Browser) : Browser :=
  mkBrowser (<[key := value]> (localStorage b)) (timers b) (nextTimer b)
            (objectURLs b) (nextObjectURL b) (revoked b) (alerts b)
            (speechSynthesis b) (spoken b).

Definition set_timers (ts : gmap N Timer) (b : Browser) : Browser :=
  mkBrowser (localStorage b) ts (nextTimer b)
            (objectURLs b) (nextObjectURL b) (revoked b) (alerts b)
            (speechSynthesis b) (spoken b).

(** [setInterval] and [setTimeout] share one table of ids. *)
Definition addTimer (t : Timer) (b : Browser) : N * Browser :=
  (nextTimer b,
   mkBrowser (localStorage b) (<[nextTimer b := t]> (timers b))
             (N.succ (nextTimer b))
             (objectURLs b) (nextObjectURL b) (revoked b) (alerts b)
             (speechSynthesis b) (spoken b)).

(** [clearInterval(ref.current)]: nothing happens for [null] or for an id
    that is no longer active. *)
Definition clearInterval (handle : option N) (b : Browser) : Browser :=
  match handle with
  | Some i => set_timers (delete i (timers b)) b
  | None => b
  end.

Definition blobURL (n : N) : jsstring := lit "blob:" ++ decimal (Z.of_N n).

Definition createObjectURL (b : Browser) : jsstring * Browser :=
  let u := blobURL (nextObjectURL b) in
  (u,
   mkBrowser (localStorage b) (timers b) (nextTimer b)
             ({[u]} ∪ objectURLs b) (N.succ (nextObjectURL b))
             (revoked b) (alerts b) (speechSynthesis b) (spoken b)).

(** Revoking a URL that is not live is accepted and does nothing more than
    being called. *)
Definition revokeObjectURL (u : jsstring) (b : Browser) : Browser :=
  mkBrowser (localStorage b) (timers b) (nextTimer b)
            (objectURLs b ∖ {[u]}) (nextObjectURL b)
            (u :: revoked b) (alerts b) (speechSynthesis b) (spoken b).

Definition alert (msg : jsstring) (b : Browser) : Browser :=
  mkBrowser (localStorage b) (timers b) (nextTimer b)
            (objectURLs b) (nextObjectURL b) (revoked b) (msg :: alerts b)
            (speechSynthesis b) (spoken b).

(** [speakText]: without the capability it returns at once; otherwise it
    cancels what is being said and starts the new utterance. *)
Definition speakText (text : jsstring) (b : Browser) : Browser :=
  if speechSynthesis b then
    mkBrowser (localStorage b) (timers b) (nextTimer b)
              (objectURLs b) (nextObjectURL b) (revoked b) (alerts b)
              (speechSynthesis b) (text :: spoken b)
  else b.

(** ** The component: its hooks, and the state of its child [JournalForm] *)

Record Component := mkComponent {
  voiceUploads : list Upload.t;
  journalEntries : list Entry.t;
  chatMessages : list Message.t;
  chatInput : jsstring;
  storyPrompt : jsstring;
  isHealing : bool;
  healingProgress : float;
  healingTimerRef : option N;      (* useRef(null) *)
  unmountUploads : list Upload.t;  (* the voiceUploads the unmount cleanup
                                      closes over: the effect has no
                                      dependencies, so those of the first
                                      render *)
  formTitle : jsstring;            (* JournalForm: title *)
  formBody : jsstring              (* JournalForm: body *)
}.

Record World := mkWorld { ui : Component; env : Browser }.

Definition browser (f : Browser -> Browser) (w : World) : World :=
  mkWorld (ui w) (f (env w)).

Definition setVoiceUploads (f : list Upload.t -> list Upload.t) (w : World)
  : World :=
  let c := ui w in
  mkWorld (mkComponent (f (voiceUploads c)) (journalEntries c) (chatMessages c)
             (chatInput c) (storyPrompt c) (isHealing c) (healingProgress c)
             (healingTimerRef c) (unmountUploads c) (formTitle c) (formBody c))
          (env w).

Definition setJournalEntries (f : list Entry.t -> list Entry.t) (w : World)
  : World :=
  let c := ui w in
  mkWorld (mkComponent (voiceUploads c) (f (journalEntries c)) (chatMessages c)
             (chatInput c) (storyPrompt c) (isHealing c) (healingProgress c)
             (healingTimerRef c) (unmountUploads c) (formTitle c) (formBody c))
          (env w).

Definition setChatMessages (f : list Message.t -> list Message.t) (w : World)
  : World :=
  let c := ui w in
  mkWorld (mkComponent (voiceUploads c) (journalEntries c) (f (chatMessages c))
             (chatInput c) (storyPrompt c) (isHealing c) (healingProgress c)
             (healingTimerRef c) (unmountUploads c) (formTitle c) (formBody c))
          (env w).

Definition setChatInput (v : jsstring) (w : World) : World :=
  let c := ui w in
  mkWorld (mkComponent (voiceUploads c) (journalEntries c) (chatMessages c)
             v (storyPrompt c) (isHealing c) (healingProgress c)
             (healingTimerRef c) (unmountUploads c) (formTitle c) (formBody c))
          (env w).

Definition setStoryPrompt (v : jsstring) (w : World) : World :=
  let c := ui w in
  mkWorld (mkComponent (voiceUploads c) (journalEntries c) (chatMessages c)
             (chatInput c) v (isHealing c) (healingProgress c)
             (healingTimerRef c) (unmountUploads c) (formTitle c) (formBody c))
          (env w).

Definition setIsHealing (v : bool) (w : World) : World :=
  let c := ui w in
  mkWorld (mkComponent (voiceUploads c) (journalEntries c) (chatMessages c)
             (chatInput c) (storyPrompt c) v (healingProgress c)
             (healingTimerRef c) (unmountUploads c) (formTitle c) (formBody c))
          (env w).

Definition setHealingProgress (v : float) (w : World) : World :=
  let c := ui w in
  mkWorld (mkComponent (voiceUploads c) (journalEntries c) (chatMessages c)
             (chatInput c) (storyPrompt c) (isHealing c) v
             (healingTimerRef c) (unmountUploads c) (formTitle c) (formBody c))
          (env w).

(** [healingTimerRef.current = v] *)
Definition setHealingTimerRef (v : option N) (w : World) : World :=
  let c := ui w in
  mkWorld (mkComponent (voiceUploads c) (journalEntries c) (chatMessages c)
             (chatInput c) (storyPrompt c) (isHealing c) (healingProgress c)
             v (unmountUploads c) (formTitle c) (formBody c))
          (env w).

Definition setTitle (v : jsstring) (w : World) : World :=
  let c := ui w in
  mkWorld (mkComponent (voiceUploads c) (journalEntries c) (chatMessages c)
             (chatInput c) (storyPrompt c) (isHealing c) (healingProgress c)
             (healingTimerRef c) (unmountUploads c) v (formBody c))
          (env w).

Definition setBody (v : jsstring) (w : World) : World :=
  let c := ui w in
  mkWorld (mkComponent (voiceUploads c) (journalEntries c) (chatMessages c)
             (chatInput c) (storyPrompt c) (isHealing c) (healingProgress c)
             (healingTimerRef c) (unmountUploads c) (formTitle c) v)
          (env w).

(** *** The two persistence effects

    [useEffect(() => localStorage.setItem(key, JSON.stringify(xs)), [xs])]
    runs after the first render and after every render in which [xs] is a
    new array; every updater below builds a new array.  (The model takes
    [setItem] to succeed.) *)

Definition effectVoiceUploads (w : World) : World :=
  browser (setItem VOICE_KEY
             (JSON_stringify (JArray (map Upload.toJSON (voiceUploads (ui w))))))
          w.

Definition effectJournalEntries (w : World) : World :=
  browser (setItem JOURNAL_KEY
             (JSON_stringify (JArray (map Entry.toJSON (journalEntries (ui w))))))
          w.

(** *** Utilities *)

(** [uid(prefix)]; [r36] is the value of [Math.random().toString(36)] at this
    call, for instance "0.i" when the draw is one half. *)
Definition uid (prefix r36 : jsstring) : jsstring :=
  prefix ++ lit "_" ++ slice r36 2 9.

Definition truncate (s : jsstring) (n : Z) : jsstring :=
  if Z.of_nat (length s) >? n then slice s 0 (n - 1) ++ [ELLIPSIS] else s.

(** *** Voice uploads *)

(** One picked file, with what [uid] and [Date.now] give while it is mapped. *)
Record Picked := mkPicked {
  file : File;
  file_random : jsstring;
  file_now : Z
}.

Fixpoint makeItems (files : list Picked) (b : Browser)
  : list Upload.t * Browser :=
  match files with
  | [] => ([], b)
  | f :: fs =>
      let '(u, b1) := createObjectURL b in
      let item := Upload.mk (uid (lit "voice") (file_random f))
                            (file_name (file f)) (file_size (file f))
                            u (file_now f) in
      let '(items, b2) := makeItems fs b1 in
      (item :: items, b2)
  end.

Definition handleVoiceUpload (files : list Picked) (w : World) : World :=
  let '(items, b) := makeItems files (env w) in
  effectVoiceUploads
    (setVoiceUploads (fun s => items ++ s) (mkWorld (ui w) b)).

Definition removeUpload (id : jsstring) (w : World) : World :=
  effectVoiceUploads
    (setVoiceUploads (fun s => filter (fun v => Upload.id v ≠ id) s) w).

(** *** Chat *)

Definition templates : list (jsstring -> jsstring) :=
  [ (fun u => lit "I remember when you told me: " ++ [0x22%N]
              ++ truncate u 80 ++ [0x22%N] ++ lit ". That made me smile.");
    (fun u => lit "Hearing about this warms me. Tell me more " ++ [EM_DASH]
              ++ lit " what happened next?");
    (fun u => lit "I'm here with you. Breathe with me. Imagine us sitting quietly, listening together.");
    (fun u => lit "You always find the little joys. I'm proud of you for noticing them.") ].

(** What the four templates give for one text. *)
Definition templateOutputs (userText : jsstring) : list jsstring :=
  map (fun template => template userText) templates.

(** [pick] is the value of [Math.floor(Math.random() * templates.length)];
    calling an entry that does not exist is a [TypeError]. *)
Definition generateSoulReply (userText : jsstring) (pick : nat)
  : Completion jsstring :=
  match templates !! pick with
  | Some template => Normal (template userText)
  | None => Throw TypeError
  end.

Definition sendChat (r36 : jsstring) (now : Z) (w : World) : World :=
  match trim (chatInput (ui w)) with
  | [] => w
  | text =>
      let userMsg := Message.mk (IdString (uid (lit "m") r36)) you text now in
      let w1 := setChatMessages (fun s => s ++ [userMsg]) w in
      let w2 := setChatInput [] w1 in
      browser (fun b => snd (addTimer (Timeout (chatInput (ui w))) b)) w2
  end.

(** The callback of the timeout [i] runs: a timeout fires once. *)
Definition replyTimeout (i : N) (pick : nat) (r36 : jsstring) (now : Z)
  (w : World) : World :=
  match timers (env w) !! i with
  | Some (Timeout input) =>
      let w1 := browser (fun b => set_timers (delete i (timers b)) b) w in
      match generateSoulReply (trim input) pick with
      | Throw _ => w1
      | Normal soulReply =>
          let soulMsg :=
            Message.mk (IdString (uid (lit "m") r36)) soul soulReply now in
          browser (speakText soulReply)
                  (setChatMessages (fun s => s ++ [soulMsg]) w1)
      end
  | _ => w
  end.

(** *** Story mode *)

Definition createStory (prompt : jsstring) : jsstring :=
  lit "Once, when the two of you wandered into the late-light, "
  ++ toLowerCase prompt ++ lit " " ++ [EM_DASH]
  ++ lit " and everything felt bright. You laughed, and the world listened.".

(** The button "Generate & Speak". *)
Definition generateAndSpeak (r36 : jsstring) (now : Z) (w : World) : World :=
  let s := createStory (storyPrompt (ui w)) in
  browser (speakText s)
    (setChatMessages
       (fun c => c ++ [Message.mk (IdString (uid (lit "m") r36)) soul s now]) w).

Definition playStory (w : World) : World :=
  browser (speakText (createStory (storyPrompt (ui w)))) w.

(** *** Journal *)

Definition addJournalEntry (title body r36 : jsstring) (now : Z) (w : World)
  : World :=
  let entry := Entry.mk (uid (lit "j") r36) title body now in
  effectJournalEntries (setJournalEntries (fun s => entry :: s) w).

Definition deleteJournalEntry (id : jsstring) (w : World) : World :=
  effectJournalEntries
    (setJournalEntries (fun s => filter (fun e => Entry.id e ≠ id) s) w).

Definition NOTICE : jsstring := lit "Please add a title and some words.".

(** [JournalForm.save], with [onSave] bound to [addJournalEntry]. *)
Definition save (r36 : jsstring) (now : Z) (w : World) : World :=
  match trim (formTitle (ui w)), trim (formBody (ui w)) with
  | [], _ | _, [] => browser (alert NOTICE) w
  | title, body =>
      setBody [] (setTitle [] (addJournalEntry title body r36 now w))
  end.

(** *** Healing mode *)

Definition CUE : jsstring :=
  lit "Inhale... 1, 2, 3, 4. Exhale... 1, 2, 3, 4, 5, 6.".

Definition total : float := 6%float.

Definition startHealing (w : World) : World :=
  let w1 := setHealingProgress 0%float (setIsHealing true w) in
  let '(i, b) := addTimer (Interval 0%float) (env w1) in
  setHealingTimerRef (Some i) (mkWorld (ui w1) b).

(** One run of the callback of the interval [i]. *)
Definition tick (i : N) (w : World) : World :=
  match timers (env w) !! i with
  | Some (Interval cycle0) =>
      let cycle := PrimFloat.add cycle0 1%float in
      let w1 := browser (fun b => set_timers (<[i := Interval cycle]> (timers b)) b) w in
      let w2 := setHealingProgress
                  (PrimFloat.mul (PrimFloat.div cycle total) 100%float) w1 in
      let w3 := browser (speakText CUE) w2 in
      if PrimFloat.leb total cycle then
        let w4 := browser (clearInterval (healingTimerRef (ui w3))) w3 in
        setHealingProgress 100%float (setIsHealing false w4)
      else w3
  | _ => w
  end.

Definition stopHealing (w : World) : World :=
  let w1 := browser (clearInterval (healingTimerRef (ui w))) w in
  setHealingProgress 0%float (setIsHealing false w1).

(** The Start button: [<button disabled={isHealing} onClick={startHealing}>];
    a disabled button dispatches no click. *)
Definition clickStart (w : World) : World :=
  if isHealing (ui w) then w else startHealing w.

(** *** Other buttons *)

Definition uploadVoiceModelDemo (w : World) : World :=
  browser (alert (lit "Demo-only: In a production app you'd send the uploaded audio files to your secure server for model training. See the code comments.")) w.

(** The clipboard itself is not modelled. *)
Definition clickPrivacy (w : World) : World :=
  browser (alert (lit "Copied demo privacy-policy URL")) w.

(** "Read" on the [i]-th saved letter. *)
Definition readLetter (i : nat) (w : World) : World :=
  match journalEntries (ui w) !! i with
  | Some j => browser (speakText (Entry.body j)) w
  | None => w
  end.

(** *** Mounting and unmounting *)

Definition GREETING : jsstring :=
  lit "I can't wait to hear about your day " ++ [EM_DASH]
  ++ lit " tell me something good.".

(** The first render and its effects.  [voice0] and [journal0] are what the
    two initialisers returned, taken here to be arrays of records. *)
Definition mount (voice0 : list Upload.t) (journal0 : list Entry.t) (now : Z)
  (b : Browser) : World :=
  effectJournalEntries
    (effectVoiceUploads
       (mkWorld
          (mkComponent voice0 journal0
             [Message.mk (IdNumber 1) soul GREETING now]
             [] (lit "Tell the story of when we first met.")
             false 0%float None voice0 [] [])
          b)).

(** The cleanup of the last effect: it revokes the URL of every record of the
    [voiceUploads] it closes over. *)
Definition unmount (w : World) : World :=
  browser
    (fun b => fold_left (fun b' v => revokeObjectURL (Upload.url v) b')
                        (unmountUploads (ui w)) b)
    w.

(** ** Events *)

Inductive Event :=
| PickFiles (files : list Picked)
| DeleteClip (id : jsstring)
| TypeChat (v : jsstring)
| Send (r36 : jsstring) (now : Z)
| ReplyDue (i : N) (pick : nat) (r36 : jsstring) (now : Z)
| ClearChat
| TypeStory (v : jsstring)
| GenerateAndSpeak (r36 : jsstring) (now : Z)
| PlayOnly
| TypeTitle (v : jsstring)
| TypeBody (v : jsstring)
| SaveLetter (r36 : jsstring) (now : Z)
| ClearForm
| ReadLetter (i : nat)
| DeleteLetter (id : jsstring)
| Start
| Stop
| Tick (i : N)
| CreateVoiceModel
| Privacy.

Definition step (w : World) (e : Event) : World :=
  match e with
  | PickFiles files => handleVoiceUpload files w
  | DeleteClip id => removeUpload id w
  | TypeChat v => setChatInput v w
  | Send r36 now => sendChat r36 now w
  | ReplyDue i pick r36 now => replyTimeout i pick r36 now w
  | ClearChat => setChatMessages (fun _ => []) w
  | TypeStory v => setStoryPrompt v w
  | GenerateAndSpeak r36 now => generateAndSpeak r36 now w
  | PlayOnly => playStory w
  | TypeTitle v => setTitle v w
  | TypeBody v => setBody v w
  | SaveLetter r36 now => save r36 now w
  | ClearForm => setBody [] (setTitle [] w)
  | ReadLetter i => readLetter i w
  | DeleteLetter id => deleteJournalEntry id w
  | Start => clickStart w
  | Stop => stopHealing w
  | Tick i => tick i w
  | CreateVoiceModel => uploadVoiceModelDemo w
  | Privacy => clickPrivacy w
  end.

Definition run (events : list Event) (w : World) : World :=
  fold_left step events w.

(** A page that has just been loaded: no timer, no object URL, nothing said
    or shown yet; timer ids start at 1. *)
Definition pageLoad (items : gmap jsstring jsstring) (speech : bool) : Browser :=
  mkBrowser items ∅ 1%N ∅ 0%N [] [] speech [].

(** [n] runs in a row of the callback of the interval [i]. *)
Fixpoint ticks (n : nat) (i : N) (w : World) : World :=
  match n with
  | O => w
  | S n' => ticks n' i (tick i w)
  end.

(** ** Predicates of the statements *)

(** The interval [i] is active with its counter at [cycle], the ref holds
    its id and the session is marked as running. *)
Definition running (i : N) (cycle : float) (w : World) : Prop :=
  timers (env w) !! i = Some (Interval cycle)
  /\ healingTimerRef (ui w) = Some i
  /\ isHealing (ui w) = true.

(** The number [k] as the counter holds it. *)
Definition cycles (k : nat) : float :=
  PrimFloat.of_uint63 (Uint63.of_Z (Z.of_nat k)).

(** At most the interval the ref points to is active, and only while the
    session is marked as running. *)
Definition one_schedule (w : World) : Prop :=
  forall i cycle, timers (env w) !! i = Some (Interval cycle) ->
    isHealing (ui w) = true /\ healingTimerRef (ui w) = Some i.

(** The store holds, under the two keys, the text of the two collections as
    they are now; every other key is as [items0] has it. *)
Definition written_through (items0 : gmap jsstring jsstring) (w : World) : Prop :=
  localStorage (env w)
  = <[JOURNAL_KEY :=
        JSON_stringify (JArray (map Entry.toJSON (journalEntries (ui w))))]>
      (<[VOICE_KEY :=
           JSON_stringify (JArray (map Upload.toJSON (voiceUploads (ui w))))]>
         items0).

(** No handle has been released since [b], and every URL live in [b] is
    still live. *)
Definition nothing_released (b : Browser) (w : World) : Prop :=
  revoked (env w) = revoked b /\ objectURLs b ⊆ objectURLs (env w).

(** *** The draws that become ids

    The values of [Math.random().toString(36)] that [uid] reads while the
    event [e] is handled in the world [w], for each of the three prefixes. *)

Definition voiceDraws (w : World) (e : Event) : list jsstring :=
  match e with
  | PickFiles files => map file_random files
  | _ => []
  end.

Definition journalDraws (w : World) (e : Event) : list jsstring :=
  match e with
  | SaveLetter r36 _ =>
      match trim (formTitle (ui w)), trim (formBody (ui w)) with
      | [], _ | _, [] => []
      | _, _ => [r36]
      end
  | _ => []
  end.

Definition chatDraws (w : World) (e : Event) : list jsstring :=
  match e with
  | Send r36 _ =>
      match trim (chatInput (ui w)) with
      | [] => []
      | _ => [r36]
      end
  | ReplyDue i pick r36 _ =>
      match timers (env w) !! i with
      | Some (Timeout input) =>
          match generateSoulReply (trim input) pick with
          | Normal _ => [r36]
          | Throw _ => []
          end
      | _ => []
      end
  | GenerateAndSpeak r36 _ => [r36]
  | _ => []
  end.

(** What [f] gives at each event of a run, in order. *)
Fixpoint along {A} (f : World -> Event -> list A) (events : list Event)
  (w : World) : list A :=
  match events with
  | [] => []
  | e :: events' => f w e ++ along f events' (step w e)
  end.

(** The characters of a draw that [uid] keeps. *)
Definition kept (r36 : jsstring) : jsstring := slice r36 2 9.

(** The draws differ in the characters kept, the ids already in the
    collection differ, and no draw gives an id that is already there. *)
Definition fresh_draws (prefix : jsstring) (loaded draws : list jsstring)
  : Prop :=
  NoDup loaded
  /\ NoDup (map kept draws)
  /\ Forall (fun r36 => uid prefix r36 ∉ loaded) draws.

(** *** A sample session *)

Definition sample_loaded : list Upload.t :=
  [Upload.mk (lit "voice_old") (lit "old.mp3") 7 (lit "blob:9") 1].

Definition sample_events : list Event :=
  [ PickFiles [mkPicked (Build_File (lit "a.mp3") 10) (lit "0.4fzyo82mvyr") 5;
               mkPicked (Build_File (lit "b.mp3") 20) (lit "0.i") 5];
    TypeChat (lit "hello"); Send (lit "0.a1") 6;
    ReplyDue 1 0 (lit "0.a2") 7; GenerateAndSpeak (lit "0.a3") 8;
    TypeTitle (lit "Hi"); TypeBody (lit "you"); SaveLetter (lit "0.k1") 9;
    DeleteClip (lit "voice_i") ].

(** *** Shape of a session of the healing timer *)

(** The progress that the callback computes for [k] cycles. *)
Definition progressAt (k : nat) : float :=
  PrimFloat.mul (PrimFloat.div (cycles k) total) 100%float.

(** Timer ids in use are below the next one, the ref never points to a
    timeout, and the flag, the interval and the progress agree: while the
    session is marked as running its interval is active with fewer than six
    cycles counted and the progress is the one of that count; otherwise the
    progress is 0 or 100. *)
Definition healing_inv (w : World) : Prop :=
  one_schedule w
  /\ (forall i, healingTimerRef (ui w) = Some i -> (i < nextTimer (env w))%N)
  /\ (forall i t, timers (env w) !! i = Some t -> (i < nextTimer (env w))%N)
  /\ (forall i t, healingTimerRef (ui w) = Some i ->
        timers (env w) !! i <> Some (Timeout t))
  /\ (if isHealing (ui w)
      then exists (i : N) (k : nat),
             (k < 6)%nat
             /\ healingTimerRef (ui w) = Some i
             /\ timers (env w) !! i = Some (Interval (cycles k))
             /\ healingProgress (ui w) = progressAt k
      else healingProgress (ui w) = 0%float
           \/ healingProgress (ui w) = 100%float).

(** *** Worlds that differ in speech only *)

(** The same component and the same browser, up to the speech capability and
    what was said. *)
Definition same_but_speech (w1 w2 : World) : Prop :=
  ui w1 = ui w2
  /\ localStorage (env w1) = localStorage (env w2)
  /\ timers (env w1) = timers (env w2)
  /\ nextTimer (env w1) = nextTimer (env w2)
  /\ objectURLs (env w1) = objectURLs (env w2)
  /\ nextObjectURL (env w1) = nextObjectURL (env w2)
  /\ revoked (env w1) = revoked (env w2)
  /\ alerts (env w1) = alerts (env w2).

(** *** Handles of the records *)

(** Every record holds a URL made in this page, the URLs of the records
    differ, and every URL made in this page is live. *)
Definition handles_inv (w : World) : Prop :=
  Forall (fun v => exists n, (n < nextObjectURL (env w))%N
                              /\ Upload.url v = blobURL n)
         (voiceUploads (ui w))
  /\ NoDup (map Upload.url (voiceUploads (ui w)))
  /\ (forall n, (n < nextObjectURL (env w))%N -> blobURL n ∈ objectURLs (env w)).

(** ** What [JSON.stringify] prints from the records *)

(** The values whose numbers are integers printed in decimal: the records of
    the component print as such values ([Upload.toJSON], [Entry.toJSON]). *)
Fixpoint integral (v : JSValue) : Prop :=
  match v with
  | JNumber lexeme => exists z : Z, lexeme = decimal z
  | JArray items => fold_right (fun x P => integral x /\ P) True items
  | JObject fields => fold_right (fun kx P => integral (snd kx) /\ P) True fields
  | _ => True
  end.

(** The text after a number ends the number: it does not go on with a digit,
    a fraction or an exponent. *)
Definition delimited (rest : jsstring) : bool :=
  match rest with
  | [] => true
  | c :: _ => negb (isDigit c || (c =? 0x2E) || (c =? 0x65) || (c =? 0x45))%N
  end.

(** [v], printed and followed by [rest], is read back as [v], and [rest] is
    what is left. *)
Definition reads_back (v : JSValue) : Prop :=
  forall rest, delimited rest = true ->
    exists n, parseValue n (JSON_stringify v ++ rest) = Some (v, rest).

(** * Properties *)

Local Open Scope nat_scope.

(** ** The model on concrete inputs *)

Example uid_of_one_half :
  uid (lit "voice") (lit "0.i") = lit "voice_i".
Proof. reflexivity. Qed.

Example uid_keeps_seven_characters :
  uid (lit "m") (lit "0.4fzyo82mvyr") = lit "m_4fzyo82".
Proof. reflexivity. Qed.

Example trim_strips_both_ends :
  trim ([0xA0; 32; 9]%N ++ lit "Hi there" ++ [10; 0x2028]%N) = lit "Hi there".
Proof. reflexivity. Qed.

Example quote_escapes :
  quote ([0x22; 10; 0x41; 0xD83D; 0xDE00; 0xDE00; 7]%N)
  = [0x22; 0x5C; 0x22; 0x5C; 0x6E; 0x41; 0xD83D; 0xDE00]%N
    ++ lit "\ude00\u0007" ++ [0x22%N].
Proof. reflexivity. Qed.

Example parse_rejects_trailing_comma : JSON_parse (lit "[1,]") = None.
Proof. reflexivity. Qed.

Example parse_nested :
  JSON_parse (lit " [ [ ] , { } , [ -1.5e+3 , true ] ] ")
  = Some (JArray [JArray []; JObject [];
                  JArray [JNumber (lit "-1.5e+3"); JBool true]]).
Proof. reflexivity. Qed.

Example stored_uploads_read_back :
  let v := Upload.mk (lit "voice_abc") (lit "a\b.mp3") 10 (blobURL 0) 5 in
  JSON_parse (JSON_stringify (JArray [Upload.toJSON v]))
  = Some (JArray [Upload.toJSON v]).
Proof. reflexivity. Qed.

(** ** Lists and strings *)

Lemma filter_twice {A} (P : A -> Prop) `{!forall x, Decision (P x)} (l : list A) :
  filter P (filter P l) = filter P l.
Proof.
  induction l as [|x l IH]; [reflexivity|].
  rewrite filter_cons. destruct (decide (P x)) as [HP|HP].
  - rewrite filter_cons, decide_True by exact HP. now rewrite IH.
  - exact IH.
Qed.

Lemma slice_from_zero (s : jsstring) (n : nat) :
  slice s 0 (Z.of_nat n) = take n s.
Proof.
  unfold slice, rel_index.
  destruct (Z.ltb_spec (Z.of_nat n) 0) as [Hneg|_]; [lia|].
  change (0 <? 0)%Z with false. cbv iota.
  replace (Z.min 0 (Z.of_nat (length s)))%Z with 0%Z by lia.
  rewrite Z.sub_0_r. change (Z.to_nat 0) with 0. rewrite drop_0.
  destruct (Z.min_spec (Z.of_nat n) (Z.of_nat (length s))) as [[Hlt ->]|[Hge ->]].
  - now rewrite Nat2Z.id.
  - rewrite Nat2Z.id. rewrite !firstn_all2; [reflexivity|lia|lia].
Qed.

Lemma truncate_short (s : jsstring) (n : nat) :
  length s <= n -> truncate s (Z.of_nat n) = s.
Proof.
  intros H. unfold truncate.
  destruct (Z.gtb_spec (Z.of_nat (length s)) (Z.of_nat n)); [lia|reflexivity].
Qed.

Lemma truncate_long (s : jsstring) (n : nat) :
  S n < length s -> truncate s (Z.of_nat (S n)) = take n s ++ [ELLIPSIS].
Proof.
  intros H. unfold truncate.
  destruct (Z.gtb_spec (Z.of_nat (length s)) (Z.of_nat (S n))); [|lia].
  replace (Z.of_nat (S n) - 1)%Z with (Z.of_nat n) by lia.
  now rewrite slice_from_zero.
Qed.

Lemma truncate_length (s : jsstring) (n : nat) :
  length (truncate s (Z.of_nat (S n))) <= S n.
Proof.
  destruct (le_lt_dec (length s) (S n)) as [Hle|Hlt].
  - now rewrite truncate_short.
  - rewrite truncate_long by exact Hlt.
    rewrite length_app, length_take. simpl. lia.
Qed.

(** ** The fuel of [JSON_parse] is enough *)

Lemma skipSpace_length (s : jsstring) : length (skipSpace s) <= length s.
Proof.
  induction s as [|c s IH]; simpl; [lia|].
  destruct (isJSONSpace c); simpl; lia.
Qed.

Lemma parseChars_shorter (s acc str r : jsstring) :
  parseChars s acc = Some (str, r) -> length r < length s.
Proof.
  remember (length s) as n eqn:Hn. revert s acc Hn.
  induction n as [n IH] using lt_wf_ind. intros s acc -> H.
  destruct s as [|c rest]; [discriminate H|]. cbn [parseChars] in H.
  destruct (c =? 0x22)%N.
  { injection H as _ <-. simpl. lia. }
  destruct (c =? 0x5C)%N.
  - destruct rest as [|e rest1]; [discriminate H|].
    destruct (e =? 0x75)%N.
    + destruct rest1 as [|h1 [|h2 [|h3 [|h4 rest2]]]]; try discriminate H.
      destruct (hexValue h1), (hexValue h2), (hexValue h3), (hexValue h4);
        try discriminate H.
      eapply (IH (length rest2)) in H; [|simpl; lia|reflexivity]. simpl. lia.
    + destruct (unescape e); [|discriminate H].
      eapply (IH (length rest1)) in H; [|simpl; lia|reflexivity]. simpl. lia.
  - destruct (c <? 0x20)%N; [discriminate H|].
    eapply (IH (length rest)) in H; [|simpl; lia|reflexivity]. simpl. lia.
Qed.

Lemma takeDigits_length (s ds r : jsstring) :
  takeDigits s = (ds, r) -> length r <= length s.
Proof.
  revert ds r. induction s as [|c s IH]; intros ds r H; simpl in H.
  - injection H as _ <-. simpl. lia.
  - destruct (isDigit c).
    + destruct (takeDigits s) as [ds' r'] eqn:E. injection H as _ <-.
      specialize (IH _ _ eq_refl). simpl. lia.
    + injection H as _ <-. simpl. lia.
Qed.

Lemma parseNumber_shorter (s lexeme r : jsstring) :
  parseNumber s = Some (lexeme, r) -> length r < length s.
Proof.
  unfold parseNumber. intros H.
  destruct (parseSign s) as [sg s1] eqn:Hsign.
  assert (H1 : length s1 <= length s).
  { unfold parseSign in Hsign. destruct s as [|c t]; [injection Hsign as _ <-; lia|].
    destruct (c =? 0x2D)%N; injection Hsign as _ <-; simpl; lia. }
  destruct (parseInt s1) as [[i s2]|] eqn:Hint; [|discriminate H].
  assert (H2 : length s2 < length s1).
  { unfold parseInt in Hint. destruct s1 as [|d t]; [discriminate Hint|].
    destruct (d =? 0x30)%N; [injection Hint as _ <-; simpl; lia|].
    destruct (isDigit d); [|discriminate Hint].
    destruct (takeDigits t) as [ds r'] eqn:E. injection Hint as _ <-.
    apply takeDigits_length in E. simpl. lia. }
  destruct (parseFrac s2) as [[f s3]|] eqn:Hfrac; [|discriminate H].
  assert (H3 : length s3 <= length s2).
  { unfold parseFrac in Hfrac. destruct s2 as [|c t]; [injection Hfrac as _ <-; lia|].
    destruct (c =? 0x2E)%N; [|injection Hfrac as _ <-; simpl; lia].
    destruct (takeDigits t) as [[|d ds] r'] eqn:E; [discriminate Hfrac|].
    injection Hfrac as _ <-. apply takeDigits_length in E. simpl. lia. }
  destruct (parseExp s3) as [[e s4]|] eqn:Hexp; [|discriminate H].
  assert (H4 : length s4 <= length s3).
  { unfold parseExp in Hexp. destruct s3 as [|c t]; [injection Hexp as _ <-; lia|].
    destruct ((c =? 0x65) || (c =? 0x45))%N; [|injection Hexp as _ <-; simpl; lia].
    assert (Hsg : forall sg' r1,
               match t with
               | [] => ([], t)
               | p :: r0 => if ((p =? 0x2B) || (p =? 0x2D))%N then ([p], r0) else ([], t)
               end = (sg', r1) -> length r1 <= length t).
    { intros sg' r1 Hm. destruct t as [|p r0]; [injection Hm as _ <-; lia|].
      destruct ((p =? 0x2B) || (p =? 0x2D))%N; injection Hm as _ <-; simpl; lia. }
    destruct (match t with
              | [] => ([], t)
              | p :: r0 => if ((p =? 0x2B) || (p =? 0x2D))%N then ([p], r0) else ([], t)
              end) as [sg' r1] eqn:Em.
    specialize (Hsg sg' r1 eq_refl).
    destruct (takeDigits r1) as [[|d ds] r'] eqn:E; [discriminate Hexp|].
    injection Hexp as _ <-. apply takeDigits_length in E. simpl. lia. }
  injection H as _ <-. lia.
Qed.

Lemma stripPrefix_length (p s r : jsstring) :
  stripPrefix p s = Some r -> length s = length p + length r.
Proof.
  revert s. induction p as [|a p IH]; intros s H; simpl in H.
  - injection H as <-. reflexivity.
  - destruct s as [|b s]; [discriminate H|].
    destruct (a =? b)%N; [|discriminate H]. apply IH in H. simpl. lia.
Qed.

Lemma parseLiteral_shorter (c : ascii) (word : string) (v v' : JSValue)
  (s r : jsstring) :
  parseLiteral (String c word) v s = Some (v', r) -> length r < length s.
Proof.
  unfold parseLiteral. intros H.
  destruct (stripPrefix _ s) as [r'|] eqn:E; [|discriminate H].
  injection H as _ <-. apply stripPrefix_length in E. rewrite E. simpl. lia.
Qed.

Lemma parseValue_eq (n : nat) (s : jsstring) :
  parseValue (S n) s
  = match skipSpace s with
    | [] => None
    | c :: rest =>
        if (c =? 0x7B)%N then
          match skipSpace rest with
          | c' :: rest' =>
              if (c' =? 0x7D)%N then Some (JObject [], rest')
              else parseMembers n (c' :: rest') []
          | [] => None
          end
        else if (c =? 0x5B)%N then
          match skipSpace rest with
          | c' :: rest' =>
              if (c' =? 0x5D)%N then Some (JArray [], rest')
              else parseElements n (c' :: rest') []
          | [] => None
          end
        else if (c =? 0x22)%N then
          match parseChars rest [] with
          | Some (str, r) => Some (JString str, r)
          | None => None
          end
        else if (c =? 0x74)%N then parseLiteral "true" (JBool true) (c :: rest)
        else if (c =? 0x66)%N then parseLiteral "false" (JBool false) (c :: rest)
        else if (c =? 0x6E)%N then parseLiteral "null" JNull (c :: rest)
        else
          match parseNumber (c :: rest) with
          | Some (lexeme, r) => Some (JNumber lexeme, r)
          | None => None
          end
    end.
Proof. reflexivity. Qed.

Lemma parseElements_eq (n : nat) (s : jsstring) (acc : list JSValue) :
  parseElements (S n) s acc
  = match parseValue n s with
    | None => None
    | Some (v, r) =>
        match skipSpace r with
        | c :: r' =>
            if (c =? 0x2C)%N then parseElements n r' (v :: acc)
            else if (c =? 0x5D)%N then Some (JArray (rev (v :: acc)), r')
            else None
        | [] => None
        end
    end.
Proof. reflexivity. Qed.

Lemma parseMembers_eq (n : nat) (s : jsstring)
  (acc : list (jsstring * JSValue)) :
  parseMembers (S n) s acc
  = match skipSpace s with
    | q :: s1 =>
        if (q =? 0x22)%N then
          match parseChars s1 [] with
          | None => None
          | Some (k, s2) =>
              match skipSpace s2 with
              | colon :: s3 =>
                  if (colon =? 0x3A)%N then
                    match parseValue n s3 with
                    | None => None
                    | Some (v, r) =>
                        match skipSpace r with
                        | c :: r' =>
                            if (c =? 0x2C)%N
                            then parseMembers n r' ((k, v) :: acc)
                            else if (c =? 0x7D)%N
                            then Some (JObject (rev ((k, v) :: acc)), r')
                            else None
                        | [] => None
                        end
                    end
                  else None
              | [] => None
              end
          end
        else None
    | [] => None
    end.
Proof. reflexivity. Qed.

(** Each of the three readers consumes at least one character. *)
Lemma parse_shorter (n : nat) :
  (forall s v r, parseValue n s = Some (v, r) -> length r < length s)
  /\ (forall s acc v r,
        parseElements n s acc = Some (v, r) -> length r < length s)
  /\ (forall s acc v r,
        parseMembers n s acc = Some (v, r) -> length r < length s).
Proof.
  induction n as [|n (IHv & IHe & IHm)]; [repeat split; discriminate|].
  split; [|split].
  - intros s v r H. rewrite parseValue_eq in H.
    pose proof (skipSpace_length s) as Hs.
    destruct (skipSpace s) as [|c rest]; [discriminate H|]. simpl in Hs.
    pose proof (skipSpace_length rest) as Hrest.
    destruct (c =? 0x7B)%N.
    { destruct (skipSpace rest) as [|c' rest']; [discriminate H|]. simpl in Hrest.
      destruct (c' =? 0x7D)%N; [injection H as _ <-; lia|].
      apply IHm in H. simpl in H. lia. }
    destruct (c =? 0x5B)%N.
    { destruct (skipSpace rest) as [|c' rest']; [discriminate H|]. simpl in Hrest.
      destruct (c' =? 0x5D)%N; [injection H as _ <-; lia|].
      apply IHe in H. simpl in H. lia. }
    destruct (c =? 0x22)%N.
    { destruct (parseChars rest []) as [[str r0]|] eqn:E; [|discriminate H].
      injection H as _ <-. apply parseChars_shorter in E. lia. }
    destruct (c =? 0x74)%N; [apply parseLiteral_shorter in H; simpl in H; lia|].
    destruct (c =? 0x66)%N; [apply parseLiteral_shorter in H; simpl in H; lia|].
    destruct (c =? 0x6E)%N; [apply parseLiteral_shorter in H; simpl in H; lia|].
    destruct (parseNumber (c :: rest)) as [[lexeme r0]|] eqn:E; [|discriminate H].
    injection H as _ <-. apply parseNumber_shorter in E. simpl in E. lia.
  - intros s acc v r H. rewrite parseElements_eq in H.
    destruct (parseValue n s) as [[v0 r0]|] eqn:E; [|discriminate H].
    apply IHv in E. pose proof (skipSpace_length r0) as Hr0.
    destruct (skipSpace r0) as [|c r']; [discriminate H|]. simpl in Hr0.
    destruct (c =? 0x2C)%N; [apply IHe in H; lia|].
    destruct (c =? 0x5D)%N; [|discriminate H]. injection H as _ <-. lia.
  - intros s acc v r H. rewrite parseMembers_eq in H.
    pose proof (skipSpace_length s) as Hs.
    destruct (skipSpace s) as [|q s1]; [discriminate H|]. simpl in Hs.
    destruct (q =? 0x22)%N; [|discriminate H].
    destruct (parseChars s1 []) as [[k s2]|] eqn:Ek; [|discriminate H].
    apply parseChars_shorter in Ek. pose proof (skipSpace_length s2) as Hs2.
    destruct (skipSpace s2) as [|colon s3]; [discriminate H|]. simpl in Hs2.
    destruct (colon =? 0x3A)%N; [|discriminate H].
    destruct (parseValue n s3) as [[v0 r0]|] eqn:E; [|discriminate H].
    apply IHv in E. pose proof (skipSpace_length r0) as Hr0.
    destruct (skipSpace r0) as [|c r']; [discriminate H|]. simpl in Hr0.
    destruct (c =? 0x2C)%N; [apply IHm in H; lia|].
    destruct (c =? 0x7D)%N; [|discriminate H]. injection H as _ <-. lia.
Qed.

(** Past twice the length of the input, one more unit of fuel changes
    nothing. *)
Lemma parse_fuel_step (n : nat) :
  (forall s, 2 * length s < n -> parseValue (S n) s = parseValue n s)
  /\ (forall s acc, 2 * length s + 1 < n ->
        parseElements (S n) s acc = parseElements n s acc)
  /\ (forall s acc, 2 * length s + 1 < n ->
        parseMembers (S n) s acc = parseMembers n s acc).
Proof.
  induction n as [|n (IHv & IHe & IHm)]; [repeat split; intros; lia|].
  split; [|split].
  - intros s Hn. rewrite (parseValue_eq (S n)), (parseValue_eq n).
    pose proof (skipSpace_length s) as Hs.
    destruct (skipSpace s) as [|c rest]; [reflexivity|]. simpl in Hs.
    pose proof (skipSpace_length rest) as Hrest.
    destruct (skipSpace rest) as [|c' rest']; [reflexivity|]. simpl in Hrest.
    rewrite IHm, IHe by (simpl; lia). reflexivity.
  - intros s acc Hn. rewrite (parseElements_eq (S n)), (parseElements_eq n).
    rewrite IHv by lia.
    destruct (parseValue n s) as [[v0 r0]|] eqn:E; [|reflexivity].
    apply (proj1 (parse_shorter n)) in E.
    pose proof (skipSpace_length r0) as Hr0.
    destruct (skipSpace r0) as [|c r']; [reflexivity|]. simpl in Hr0.
    rewrite IHe by lia. reflexivity.
  - intros s acc Hn. rewrite (parseMembers_eq (S n)), (parseMembers_eq n).
    pose proof (skipSpace_length s) as Hs.
    destruct (skipSpace s) as [|q s1]; [reflexivity|]. simpl in Hs.
    destruct (q =? 0x22)%N; [|reflexivity].
    destruct (parseChars s1 []) as [[k s2]|] eqn:Ek; [|reflexivity].
    apply parseChars_shorter in Ek. pose proof (skipSpace_length s2) as Hs2.
    destruct (skipSpace s2) as [|colon s3]; [reflexivity|]. simpl in Hs2.
    destruct (colon =? 0x3A)%N; [|reflexivity].
    rewrite IHv by lia.
    destruct (parseValue n s3) as [[v0 r0]|] eqn:E; [|reflexivity].
    apply (proj1 (parse_shorter n)) in E.
    pose proof (skipSpace_length r0) as Hr0.
    destruct (skipSpace r0) as [|c r']; [reflexivity|]. simpl in Hr0.
    rewrite IHm by lia. reflexivity.
Qed.

(** [JSON_parse] does not depend on its fuel: any larger amount gives the
    same result. *)
Lemma JSON_parse_fuel (text : jsstring) (extra : nat) :
  parseValue (2 * length text + 2 + extra) text
  = parseValue (2 * length text + 2) text.
Proof.
  induction extra as [|extra IH]; [now rewrite Nat.add_0_r|].
  rewrite Nat.add_succ_r, (proj1 (parse_fuel_step _)) by lia. exact IH.
Qed.

(** ** Reading the store *)

Lemma parse_empty_array : JSON_parse (lit "[]") = Some (JArray []).
Proof. reflexivity. Qed.

Lemma load_granted (items : gmap jsstring jsstring) (key : jsstring) :
  load (Granted items) key
  = match JSON_parse (orElse (items !! key) (lit "[]")) with
    | Some v => Normal v
    | None => Normal (JArray [])
    end.
Proof.
  unfold load, getItem, andThen, tryCatch, JSON_parse_or_throw.
  now destruct (JSON_parse _).
Qed.

(** C4, as amended: [load] never throws, whatever the store does; it returns
    the empty array when access to the store is denied, when the key is
    absent, when the stored text is empty and when the text is not JSON; a
    text that is JSON is returned as parsed, whatever its shape. *)
Theorem load_never_throws_empty_on_failure :
  (forall st key, exists v, load st key = Normal v)
  /\ (forall key, load Denied key = Normal (JArray []))
  /\ (forall items key, items !! key = None ->
      load (Granted items) key = Normal (JArray []))
  /\ (forall items key, items !! key = Some [] ->
      load (Granted items) key = Normal (JArray []))
  /\ (forall items key text, items !! key = Some text ->
      JSON_parse text = None -> load (Granted items) key = Normal (JArray []))
  /\ (forall items key text v, items !! key = Some text ->
      JSON_parse text = Some v -> load (Granted items) key = Normal v).
Proof.
  repeat split.
  - intros [|items] key; [now exists (JArray [])|].
    rewrite load_granted. destruct (JSON_parse _) as [v|]; eauto.
  - intros items key Hk. now rewrite load_granted, Hk.
  - intros items key Hk. now rewrite load_granted, Hk.
  - intros items key text Hk Hp. rewrite load_granted, Hk.
    destruct text as [|c text]; [reflexivity|]. simpl. now rewrite Hp.
  - intros items key text v Hk Hp. rewrite load_granted, Hk.
    destruct text as [|c text]; [discriminate Hp|]. simpl. now rewrite Hp.
Qed.

Lemma load_never_throws_empty_on_failure_witness :
  load (Granted ∅) JOURNAL_KEY = Normal (JArray [])
  /\ load (Granted {[ VOICE_KEY := lit "[{'id':" ]}) VOICE_KEY
     = Normal (JArray [])
  /\ load (Granted {[ VOICE_KEY := lit "[true]" ]}) VOICE_KEY
     = Normal (JArray [JBool true]).
Proof.
  destruct load_never_throws_empty_on_failure
    as (_ & _ & Habsent & _ & Hbad & Hgood).
  split; [|split].
  - apply Habsent. reflexivity.
  - apply (Hbad _ _ (lit "[{'id':")); reflexivity.
  - apply (Hgood _ _ (lit "[true]")); reflexivity.
Defined.

(** C4, as stated, fails: a stored text that is JSON but not a collection is
    handed to the component as it is. *)
Lemma load_returns_what_is_not_a_collection :
  load (Granted {[ VOICE_KEY := lit "null" ]}) VOICE_KEY = Normal JNull
  /\ load (Granted {[ JOURNAL_KEY := lit "7" ]}) JOURNAL_KEY
     = Normal (JNumber (lit "7"))
  /\ load (Granted {[ VOICE_KEY := lit "null" ]}) VOICE_KEY
     <> Normal (JArray []).
Proof.
  split; [reflexivity|]. split; [reflexivity|]. discriminate.
Qed.

(** ** The reply generator *)

Lemma lit_app_nonempty (c : ascii) (s : string) (rest : jsstring) :
  lit (String c s) ++ rest <> [].
Proof. discriminate. Qed.

(** The part of the text that the echo shows. *)
Lemma truncate_shows_prefix (userText : jsstring) :
  exists shown rest,
    userText = shown ++ rest
    /\ length shown <= 80
    /\ (rest = [] /\ truncate userText 80 = shown
        \/ rest <> [] /\ truncate userText 80 = shown ++ [ELLIPSIS]).
Proof.
  destruct (le_lt_dec (length userText) 80) as [Hle|Hlt].
  - exists userText, []. rewrite app_nil_r. split; [reflexivity|].
    split; [exact Hle|]. left. split; [reflexivity|].
    exact (truncate_short userText 80 Hle).
  - exists (take 79 userText), (drop 79 userText).
    rewrite take_drop. split; [reflexivity|]. split.
    + rewrite length_take. lia.
    + right. split; [|exact (truncate_long userText 79 Hlt)].
      intros Hnil. apply (f_equal length) in Hnil.
      rewrite length_drop in Hnil. simpl in Hnil. lia.
Qed.

(** C7.  Whatever the text, each of the four templates yields a non-empty
    reply.  The first template embeds [truncate userText 80] between quotes;
    that echo has at most 80 characters: the text itself when it has at most
    80, its first 79 followed by the ellipsis otherwise; so it shows a prefix
    of the text of at most 80 characters, followed by the ellipsis exactly
    when something was cut. *)
Theorem reply_nonempty_echo_truncated (userText : jsstring) (pick : nat)
  (Hpick : pick < length templates) :
  exists reply,
    generateSoulReply userText pick = Normal reply
    /\ reply <> []
    /\ (pick = 0 ->
        reply = lit "I remember when you told me: " ++ [0x22%N]
                ++ truncate userText 80 ++ [0x22%N]
                ++ lit ". That made me smile.")
    /\ length (truncate userText 80) <= 80
    /\ (length userText <= 80 -> truncate userText 80 = userText)
    /\ (80 < length userText ->
        truncate userText 80 = take 79 userText ++ [ELLIPSIS])
    /\ exists shown rest,
         userText = shown ++ rest
         /\ length shown <= 80
         /\ (rest = [] /\ truncate userText 80 = shown
             \/ rest <> [] /\ truncate userText 80 = shown ++ [ELLIPSIS]).
Proof.
  assert (Hecho : length (truncate userText 80) <= 80
                  /\ (length userText <= 80 -> truncate userText 80 = userText)
                  /\ (80 < length userText ->
                      truncate userText 80 = take 79 userText ++ [ELLIPSIS])
                  /\ exists shown rest,
                       userText = shown ++ rest
                       /\ length shown <= 80
                       /\ (rest = [] /\ truncate userText 80 = shown
                           \/ rest <> []
                              /\ truncate userText 80 = shown ++ [ELLIPSIS])).
  { split; [exact (truncate_length userText 79)|].
    split; [exact (truncate_short userText 80)|].
    split; [exact (truncate_long userText 79)|].
    exact (truncate_shows_prefix userText). }
  destruct pick as [|[|[|[|pick]]]]; simpl in Hpick; try lia;
    (eexists; split; [reflexivity|]; split;
     [first [apply lit_app_nonempty | discriminate]|]; split;
     [intros Hp; first [reflexivity | discriminate Hp] | exact Hecho]).
Qed.

Lemma reply_nonempty_echo_truncated_witness :
  exists reply,
    generateSoulReply (lit "hello") 0 = Normal reply
    /\ reply <> []
    /\ length (truncate (lit "hello") 80) <= 80.
Proof.
  destruct (reply_nonempty_echo_truncated (lit "hello") 0)
    as (reply & Hreply & Hne & _ & Hlen & _); [simpl; lia|].
  exists reply. split; [exact Hreply|]. split; [exact Hne|exact Hlen].
Defined.

Example echo_of_a_long_text :
  truncate (repeat 0x61%N 81) 80 = repeat 0x61%N 79 ++ [ELLIPSIS].
Proof. reflexivity. Qed.

(** ** The upload registry *)

(** C9.  A second [removeUpload] of the same id changes nothing, in the
    component or in the browser: it is a call like any other, not an error;
    after the first one no record has the id. *)
Theorem removeUpload_idempotent (w : World) (id : jsstring) :
  removeUpload id (removeUpload id w) = removeUpload id w
  /\ Forall (fun v => Upload.id v <> id) (voiceUploads (ui (removeUpload id w))).
Proof.
  split.
  - unfold removeUpload, effectVoiceUploads, setVoiceUploads, browser, setItem.
    simpl. rewrite filter_twice, insert_insert_eq. reflexivity.
  - simpl. apply Forall_forall. intros v Hv.
    apply list_elem_of_filter in Hv. tauto.
Qed.

(** ** Unfolding the handlers *)

Ltac unfold_setters :=
  unfold setVoiceUploads, setJournalEntries, setChatMessages, setChatInput,
    setStoryPrompt, setIsHealing, setHealingProgress, setHealingTimerRef,
    setTitle, setBody, effectVoiceUploads, effectJournalEntries, browser,
    setItem, set_timers, addTimer, clearInterval, alert, speakText in *.

Ltac projections :=
  cbn [ui env voiceUploads journalEntries chatMessages chatInput storyPrompt
       isHealing healingProgress healingTimerRef unmountUploads formTitle
       formBody localStorage timers nextTimer objectURLs nextObjectURL revoked
       alerts speechSynthesis spoken fst snd] in *.

(** A world as its fields: every projection of a setter then computes. *)
Ltac fields w :=
  destruct w as [[? ? ? ? ? ? ? ? ? ? ?] [? ? ? ? ? ? ? ? ?]].

Ltac setters :=
  cbn [setVoiceUploads setJournalEntries setChatMessages setChatInput
       setStoryPrompt setIsHealing setHealingProgress setHealingTimerRef
       setTitle setBody effectVoiceUploads effectJournalEntries browser
       setItem set_timers addTimer clearInterval alert speakText
       ui env voiceUploads journalEntries chatMessages chatInput storyPrompt
       isHealing healingProgress healingTimerRef unmountUploads formTitle
       formBody localStorage timers nextTimer objectURLs nextObjectURL revoked
       alerts speechSynthesis spoken fst snd] in *.

(** ** The journal form *)

(** C5.  [save] with a title or a body that is empty once trimmed shows the
    notice and changes nothing else: the entries and the store stay as they
    were.  With both non-empty it puts the new entry, made of the trimmed
    fields, in front of the others and writes the new collection to the
    store. *)
Theorem save_rejects_blank_else_prepends (r36 : jsstring) (now : Z) (w : World) :
  (trim (formTitle (ui w)) = [] \/ trim (formBody (ui w)) = [] ->
   save r36 now w = browser (alert NOTICE) w
   /\ journalEntries (ui (save r36 now w)) = journalEntries (ui w)
   /\ localStorage (env (save r36 now w)) = localStorage (env w)
   /\ alerts (env (save r36 now w)) = NOTICE :: alerts (env w))
  /\ (trim (formTitle (ui w)) <> [] -> trim (formBody (ui w)) <> [] ->
      let w' := save r36 now w in
      journalEntries (ui w')
      = Entry.mk (uid (lit "j") r36) (trim (formTitle (ui w)))
                 (trim (formBody (ui w))) now
        :: journalEntries (ui w)
      /\ localStorage (env w') !! JOURNAL_KEY
         = Some (JSON_stringify
                   (JArray (map Entry.toJSON (journalEntries (ui w')))))
      /\ alerts (env w') = alerts (env w)).
Proof.
  unfold save. split.
  - intros Hblank.
    assert (Hsave : match trim (formTitle (ui w)), trim (formBody (ui w)) with
                    | [], _ | _, [] => browser (alert NOTICE) w
                    | title, body =>
                        setBody [] (setTitle [] (addJournalEntry title body r36 now w))
                    end = browser (alert NOTICE) w).
    { destruct Hblank as [-> | ->]; [reflexivity|].
      now destruct (trim (formTitle (ui w))). }
    rewrite Hsave. repeat split.
  - intros Ht Hb.
    destruct (trim (formTitle (ui w))) as [|c t]; [congruence|].
    destruct (trim (formBody (ui w))) as [|d b]; [congruence|].
    unfold addJournalEntry. unfold_setters. projections.
    repeat split. apply lookup_insert_eq.
Qed.

Lemma save_rejects_blank_else_prepends_witness :
  let blank := setBody [] (setTitle (lit "Hi")
                 (mount [] [] 0 (pageLoad ∅ true))) in
  let filled := setBody (lit " dear you ") (setTitle (lit "Hi")
                  (mount [] [] 0 (pageLoad ∅ true))) in
  (journalEntries (ui (save (lit "0.i") 5 blank)) = []
   /\ alerts (env (save (lit "0.i") 5 blank)) = [NOTICE])
  /\ journalEntries (ui (save (lit "0.i") 5 filled))
     = [Entry.mk (lit "j_i") (lit "Hi") (lit "dear you") 5].
Proof.
  intros blank filled. split.
  - destruct (save_rejects_blank_else_prepends (lit "0.i") 5 blank)
      as [Hreject _].
    destruct Hreject as (_ & Hentries & _ & Halerts); [right; reflexivity|].
    split; [exact Hentries | exact Halerts].
  - destruct (save_rejects_blank_else_prepends (lit "0.i") 5 filled)
      as [_ Haccept].
    destruct Haccept as (Hentries & _); [discriminate | discriminate |].
    exact Hentries.
Defined.

(** ** The chat session *)

Lemma generateSoulReply_in_range (userText : jsstring) (pick : nat) :
  pick < length templates ->
  exists reply, generateSoulReply userText pick = Normal reply
                /\ In reply (templateOutputs userText).
Proof.
  intros Hpick. unfold generateSoulReply.
  destruct (templates !! pick) as [template|] eqn:Ht.
  - exists (template userText). split; [reflexivity|].
    apply (in_map (fun t => t userText)), list_elem_of_In.
    eapply list_elem_of_lookup_2, Ht.
  - apply lookup_ge_None in Ht. lia.
Qed.

(** Whenever the timeout [i] is pending with the text [input], its callback
    appends one message of the companion and the timeout is gone. *)
Lemma replyTimeout_appends_one (i : N) (pick : nat) (r36 : jsstring) (now : Z)
  (input : jsstring) (w : World) :
  timers (env w) !! i = Some (Timeout input) ->
  pick < length templates ->
  let w' := replyTimeout i pick r36 now w in
  exists reply,
    chatMessages (ui w')
    = chatMessages (ui w)
      ++ [Message.mk (IdString (uid (lit "m") r36)) soul reply now]
    /\ In reply (templateOutputs (trim input))
    /\ timers (env w') = delete i (timers (env w)).
Proof.
  intros Ht Hpick. unfold replyTimeout. rewrite Ht.
  destruct (generateSoulReply_in_range (trim input) pick Hpick)
    as (reply & -> & Hin).
  exists reply. unfold_setters. projections.
  split; [reflexivity|]. split; [exact Hin|].
  now destruct (speechSynthesis (env w)).
Qed.

(** C6.  [sendChat] with an input that is empty once trimmed leaves the world
    as it is.  Otherwise it appends one message of the user with the trimmed
    text and schedules one timeout; when that timeout is due the log gains
    one message of the companion, whose text is one of the four template
    outputs for the trimmed text, and the timeout is no longer pending. *)
Theorem sendChat_appends_then_one_reply (r36 : jsstring) (now : Z) (w : World) :
  (trim (chatInput (ui w)) = [] -> sendChat r36 now w = w)
  /\ (trim (chatInput (ui w)) <> [] ->
      let w1 := sendChat r36 now w in
      let i := nextTimer (env w) in
      chatMessages (ui w1)
      = chatMessages (ui w)
        ++ [Message.mk (IdString (uid (lit "m") r36)) you
                       (trim (chatInput (ui w))) now]
      /\ timers (env w1) = <[i := Timeout (chatInput (ui w))]> (timers (env w))
      /\ forall pick r36' now', pick < length templates ->
         let w2 := replyTimeout i pick r36' now' w1 in
         exists reply,
           chatMessages (ui w2)
           = chatMessages (ui w1)
             ++ [Message.mk (IdString (uid (lit "m") r36')) soul reply now']
           /\ In reply (templateOutputs (trim (chatInput (ui w))))
           /\ timers (env w2) !! i = None).
Proof.
  split.
  - intros Hblank. unfold sendChat. now rewrite Hblank.
  - intros Htext w1 i.
    assert (Hw1 : w1 = browser (fun b => snd (addTimer (Timeout (chatInput (ui w))) b))
                         (setChatInput []
                            (setChatMessages
                               (fun s => s ++ [Message.mk (IdString (uid (lit "m") r36))
                                                 you (trim (chatInput (ui w))) now])
                               w))).
    { subst w1. unfold sendChat.
      destruct (trim (chatInput (ui w))); [congruence|reflexivity]. }
    assert (Htimers : timers (env w1)
                      = <[i := Timeout (chatInput (ui w))]> (timers (env w))).
    { rewrite Hw1. reflexivity. }
    split; [rewrite Hw1; reflexivity|]. split; [exact Htimers|].
    intros pick r36' now' Hpick.
    destruct (replyTimeout_appends_one i pick r36' now' (chatInput (ui w)) w1)
      as (reply & Hlog & Hin & Hgone); [|exact Hpick|].
    + rewrite Htimers. apply lookup_insert_eq.
    + exists reply. split; [exact Hlog|]. split; [exact Hin|].
      rewrite Hgone. apply lookup_delete_eq.
Qed.

Lemma sendChat_appends_then_one_reply_witness :
  let idle := mount [] [] 0 (pageLoad ∅ true) in
  let typed := setChatInput (lit "hello") idle in
  sendChat (lit "0.a") 7 (setChatInput (lit "  ") idle)
  = setChatInput (lit "  ") idle
  /\ map Message.text (chatMessages (ui (sendChat (lit "0.a") 7 typed)))
     = [GREETING; lit "hello"]
  /\ exists reply,
       map Message.text
         (chatMessages (ui (replyTimeout 1 0 (lit "0.b") 9
                              (sendChat (lit "0.a") 7 typed))))
       = [GREETING; lit "hello"; reply]
       /\ In reply (templateOutputs (lit "hello")).
Proof.
  intros idle typed. split; [|split].
  - apply (sendChat_appends_then_one_reply (lit "0.a") 7). reflexivity.
  - destruct (sendChat_appends_then_one_reply (lit "0.a") 7 typed)
      as [_ Hsend].
    destruct Hsend as (Hlog & _); [discriminate|].
    rewrite Hlog. reflexivity.
  - destruct (sendChat_appends_then_one_reply (lit "0.a") 7 typed)
      as [_ Hsend].
    destruct Hsend as (Hlog & _ & Hreply); [discriminate|].
    destruct (Hreply 0 (lit "0.b") 9%Z) as (reply & Hlog2 & Hin & _);
      [simpl; lia|].
    exists reply. split; [|exact Hin].
    change (nextTimer (env typed)) with 1%N in Hlog2.
    rewrite Hlog2, Hlog. reflexivity.
Defined.

(** ** The healing timer *)

Lemma startHealing_running (w : World) :
  running (nextTimer (env w)) 0%float (startHealing w)
  /\ healingProgress (ui (startHealing w)) = 0%float.
Proof.
  fields w. unfold running, startHealing. setters.
  split; [|reflexivity]. split; [apply lookup_insert_eq|]. now split.
Qed.

Lemma tick_continues (i : N) (cycle cycle' : float) (w : World) :
  running i cycle w ->
  cycle' = PrimFloat.add cycle 1%float ->
  PrimFloat.leb total cycle' = false ->
  running i cycle' (tick i w)
  /\ healingProgress (ui (tick i w))
     = PrimFloat.mul (PrimFloat.div cycle' total) 100%float.
Proof.
  fields w. unfold running, tick. setters.
  intros (Ht & Href & Hrun) -> Hleb. rewrite Ht, Hleb.
  destruct speechSynthesis0; setters;
    (split; [|reflexivity]; split; [apply lookup_insert_eq|]; now split).
Qed.

Lemma tick_completes (i : N) (cycle : float) (w : World) :
  running i cycle w ->
  PrimFloat.leb total (PrimFloat.add cycle 1%float) = true ->
  healingProgress (ui (tick i w)) = 100%float
  /\ isHealing (ui (tick i w)) = false
  /\ timers (env (tick i w)) !! i = None.
Proof.
  fields w. unfold running, tick. setters.
  intros (Ht & Href & Hrun) Hleb. rewrite Ht, Hleb.
  destruct speechSynthesis0; setters; rewrite Href; setters;
    (split; [reflexivity|]; split; [reflexivity|]; apply lookup_delete_eq).
Qed.

Lemma stopHealing_resets (w : World) :
  healingProgress (ui (stopHealing w)) = 0%float
  /\ isHealing (ui (stopHealing w)) = false
  /\ forall i, healingTimerRef (ui w) = Some i ->
     timers (env (stopHealing w)) !! i = None.
Proof.
  fields w. unfold stopHealing. setters.
  split; [reflexivity|]. split; [reflexivity|].
  intros i ->. apply lookup_delete_eq.
Qed.

Lemma ticks_succ (n : nat) (i : N) (w : World) :
  ticks (S n) i w = tick i (ticks n i w).
Proof.
  revert w. induction n as [|n IH]; intros w; [reflexivity|].
  change (ticks (S (S n)) i w) with (ticks (S n) i (tick i w)).
  now rewrite IH.
Qed.

(** Up to the sixth run of its callback the interval made by [startHealing]
    is active and counts the runs. *)
Lemma ticks_running (w : World) (k : nat) :
  k < 6 ->
  running (nextTimer (env w)) (cycles k)
          (ticks k (nextTimer (env w)) (startHealing w)).
Proof.
  intros Hk. set (i := nextTimer (env w)). set (w0 := startHealing w).
  pose proof (proj1 (startHealing_running w)) as H0. fold i w0 in H0.
  pose proof (proj1 (tick_continues i _ 1%float _ H0 eq_refl eq_refl)) as H1.
  pose proof (proj1 (tick_continues i _ 2%float _ H1 eq_refl eq_refl)) as H2.
  pose proof (proj1 (tick_continues i _ 3%float _ H2 eq_refl eq_refl)) as H3.
  pose proof (proj1 (tick_continues i _ 4%float _ H3 eq_refl eq_refl)) as H4.
  pose proof (proj1 (tick_continues i _ 5%float _ H4 eq_refl eq_refl)) as H5.
  destruct k as [|[|[|[|[|[|k]]]]]]; try lia;
    rewrite ?ticks_succ; assumption.
Qed.

(** C3.  Six runs of the interval's callback after [startHealing] leave the
    progress at 100, the session not running and the interval cleared.
    Before the sixth run (after [k < 6] runs, the interval being still active
    and the session running) [stopHealing] clears the interval, marks the
    session as not running and sets the progress to 0. *)
Theorem six_ticks_complete_stop_resets (w : World) (k : nat) (Hk : k < 6) :
  let i := nextTimer (env w) in
  let w6 := ticks 6 i (startHealing w) in
  let wk := ticks k i (startHealing w) in
  (healingProgress (ui w6) = 100%float
   /\ isHealing (ui w6) = false
   /\ timers (env w6) !! i = None)
  /\ (isHealing (ui wk) = true
      /\ timers (env wk) !! i = Some (Interval (cycles k)))
  /\ (healingProgress (ui (stopHealing wk)) = 0%float
      /\ isHealing (ui (stopHealing wk)) = false
      /\ timers (env (stopHealing wk)) !! i = None).
Proof.
  intros i w6 wk.
  pose proof (ticks_running w k Hk) as (Ht & Href & Hrun).
  fold i in Ht, Href, Hrun. fold wk in Ht, Href, Hrun.
  split; [|split].
  - assert (H5 : running i (cycles 5) (ticks 5 i (startHealing w)))
      by (apply ticks_running; lia).
    subst w6. rewrite ticks_succ.
    apply (tick_completes i _ _ H5). reflexivity.
  - split; assumption.
  - destruct (stopHealing_resets wk) as (Hp & Hh & Hc).
    split; [exact Hp|]. split; [exact Hh|]. apply Hc, Href.
Qed.

Lemma six_ticks_complete_stop_resets_witness :
  let w := mount [] [] 0 (pageLoad ∅ true) in
  healingProgress (ui (ticks 6 1 (startHealing w))) = 100%float
  /\ isHealing (ui (ticks 6 1 (startHealing w))) = false
  /\ healingProgress (ui (stopHealing (ticks 3 1 (startHealing w)))) = 0%float
  /\ isHealing (ui (stopHealing (ticks 3 1 (startHealing w)))) = false
  /\ timers (env (stopHealing (ticks 3 1 (startHealing w)))) !! 1%N = None.
Proof.
  intros w.
  destruct (six_ticks_complete_stop_resets w 3) as ((Hp & Hh & _) & _ & Hs);
    [lia|].
  split; [exact Hp|]. split; [exact Hh|]. exact Hs.
Defined.

Example progress_after_each_tick :
  map (fun k => healingProgress
                  (ui (ticks k 1 (startHealing (mount [] [] 0 (pageLoad ∅ true))))))
      [1; 2; 3; 4; 5; 6]
  = [0x1.0aaaaaaaaaaaap+4; 0x1.0aaaaaaaaaaaap+5; 50; 0x1.0aaaaaaaaaaaap+6;
     0x1.4d55555555556p+6; 100]%float.
Proof. reflexivity. Qed.

(** ** Invariants of the event loop *)

Lemma run_invariant (Inv : World -> Prop) :
  (forall w e, Inv w -> Inv (step w e)) ->
  forall events w, Inv w -> Inv (run events w).
Proof.
  intros Hstep events. unfold run.
  induction events as [|e events IH]; intros w Hw; simpl; auto.
Qed.

(** [makeItems] only touches the table of object URLs. *)
Lemma makeItems_cons (f : Picked) (files : list Picked) (b : Browser) :
  makeItems (f :: files) b
  = (Upload.mk (uid (lit "voice") (file_random f)) (file_name (file f))
               (file_size (file f)) (fst (createObjectURL b)) (file_now f)
       :: fst (makeItems files (snd (createObjectURL b))),
     snd (makeItems files (snd (createObjectURL b)))).
Proof.
  cbn [makeItems]. unfold createObjectURL at 1.
  change (snd (createObjectURL b)) with
    (mkBrowser (localStorage b) (timers b) (nextTimer b)
             ({[blobURL (nextObjectURL b)]} ∪ objectURLs b) (N.succ (nextObjectURL b))
             (revoked b) (alerts b) (speechSynthesis b) (spoken b)).
  now destruct (makeItems files _).
Qed.

Lemma makeItems_frame (files : list Picked) (b : Browser) :
  let b' := snd (makeItems files b) in
  localStorage b' = localStorage b /\ timers b' = timers b
  /\ nextTimer b' = nextTimer b /\ revoked b' = revoked b
  /\ alerts b' = alerts b /\ speechSynthesis b' = speechSynthesis b
  /\ spoken b' = spoken b /\ objectURLs b ⊆ objectURLs b'.
Proof.
  revert b. induction files as [|f files IH]; intros b.
  - simpl. repeat split. reflexivity.
  - rewrite makeItems_cons. cbn [snd].
    destruct (IH (snd (createObjectURL b)))
      as (-> & -> & -> & -> & -> & -> & -> & Hsub).
    repeat split. etrans; [|exact Hsub]. apply union_subseteq_r.
Qed.

Lemma makeItems_ids (files : list Picked) (b : Browser) :
  map Upload.id (fst (makeItems files b))
  = map (fun f => uid (lit "voice") (file_random f)) files.
Proof.
  revert b. induction files as [|f files IH]; intros b; [reflexivity|].
  rewrite makeItems_cons. cbn [fst map Upload.id]. now rewrite IH.
Qed.

Ltac unfold_handlers :=
  unfold step, handleVoiceUpload, removeUpload, sendChat, replyTimeout,
    generateAndSpeak, playStory, save, addJournalEntry, deleteJournalEntry,
    clickStart, startHealing, stopHealing, tick, uploadVoiceModelDemo,
    clickPrivacy, readLetter in *.

(** Case analysis on what a handler tests. *)
Ltac handler_cases :=
  repeat match goal with
    | |- context [match trim ?x with _ => _ end] => destruct (trim x) eqn:?
    | |- context [match ?m !! ?i with _ => _ end] =>
        match type of m with
        | gmap N Timer => destruct (m !! i) as [[?|?]|] eqn:?
        | _ => destruct (m !! i) eqn:?
        end
    | |- context [match generateSoulReply ?a ?p with _ => _ end] =>
        destruct (generateSoulReply a p) eqn:?
    | |- context [if PrimFloat.leb ?a ?c then _ else _] =>
        destruct (PrimFloat.leb a c) eqn:?
    | |- context [if ?b then _ else _] => is_var b; destruct b
    | |- context [match ?b with Some _ => _ | None => _ end] =>
        is_var b; destruct b
    end.

Ltac handler_steps :=
  repeat (progress (setters; unfold speakText, clearInterval in *;
                    handler_cases)).

Lemma handleVoiceUpload_eq (files : list Picked) (w : World) :
  handleVoiceUpload files w
  = effectVoiceUploads
      (setVoiceUploads (fun s => fst (makeItems files (env w)) ++ s)
         (mkWorld (ui w) (snd (makeItems files (env w))))).
Proof. unfold handleVoiceUpload. now destruct (makeItems files (env w)). Qed.

Lemma step_one_schedule (w : World) (e : Event) :
  one_schedule w -> one_schedule (step w e).
Proof.
  intros Hinv. destruct e; cbn [step].
  1: { rewrite handleVoiceUpload_eq. intros i c.
       destruct (makeItems_frame files (env w)) as (_ & Ht & _).
       fields w. setters. rewrite Ht. apply Hinv. }
  all: fields w; unfold one_schedule in *; unfold_handlers; handler_steps;
    try exact Hinv; intros j c;
    repeat first [rewrite lookup_insert | rewrite lookup_delete | case_decide];
    intros Hj; simplify_eq; try (split; reflexivity);
    repeat match goal with
      | H : _ !! _ = Some (Interval _) |- _ => apply Hinv in H; destruct H
      end;
    try (split; congruence).
Qed.

Lemma mount_one_schedule (voice0 : list Upload.t) (journal0 : list Entry.t)
  (now : Z) (items : gmap jsstring jsstring) (speech : bool) :
  one_schedule (mount voice0 journal0 now (pageLoad items speech)).
Proof. intros i c. cbn. rewrite lookup_empty. discriminate. Qed.




(** ** Handles of the uploads *)

Lemma step_nothing_released (b : Browser) (w : World) (e : Event) :
  nothing_released b w -> nothing_released b (step w e).
Proof.
  intros Hinv. destruct e; cbn [step].
  1: { rewrite handleVoiceUpload_eq.
       destruct (makeItems_frame files (env w)) as (_ & _ & _ & Hr & _ & _ & _ & Hu).
       fields w. unfold nothing_released in *. setters.
       rewrite Hr. destruct Hinv as [-> Hsub].
       split; [reflexivity|]. etrans; [exact Hsub|exact Hu]. }
  all: fields w; unfold nothing_released in *; unfold_handlers; handler_steps;
    exact Hinv.
Qed.

(** C2, as amended.  [removeUpload] removes the records that have the id and
    releases no handle; nor does any other event of a running session: the
    calls of [URL.revokeObjectURL] are the same after any sequence of events
    and every URL that was live still is.  So no handle is released twice
    while the component is mounted. *)
Theorem removeUpload_releases_nothing (w : World) (id : jsstring)
  (events : list Event) :
  voiceUploads (ui (removeUpload id w))
  = filter (fun v => Upload.id v ≠ id) (voiceUploads (ui w))
  /\ revoked (env (removeUpload id w)) = revoked (env w)
  /\ objectURLs (env (removeUpload id w)) = objectURLs (env w)
  /\ revoked (env (run events w)) = revoked (env w)
  /\ objectURLs (env w) ⊆ objectURLs (env (run events w)).
Proof.
  split; [reflexivity|]. split; [reflexivity|]. split; [reflexivity|].
  apply (run_invariant (nothing_released (env w))).
  - apply step_nothing_released.
  - split; reflexivity.
Qed.

(** What the cleanup at unmount revokes: the URLs of the records of the
    first render, whatever the uploads are by then. *)
Lemma unmount_revokes_first_render (w : World) :
  revoked (env (unmount w))
  = rev (map Upload.url (unmountUploads (ui w))) ++ revoked (env w).
Proof.
  unfold unmount, browser. cbn [env].
  generalize (env w) as b.
  induction (unmountUploads (ui w)) as [|v l IH]; intros b; [reflexivity|].
  cbn [fold_left map rev]. rewrite IH, <- app_assoc. reflexivity.
Qed.

Lemma step_unmountUploads (w : World) (e : Event) :
  unmountUploads (ui (step w e)) = unmountUploads (ui w).
Proof.
  destruct e; cbn [step].
  1: { rewrite handleVoiceUpload_eq. reflexivity. }
  all: fields w; unfold_handlers; handler_steps; reflexivity.
Qed.

Lemma run_unmountUploads (voice0 : list Upload.t) (journal0 : list Entry.t)
  (now : Z) (b : Browser) (events : list Event) :
  unmountUploads (ui (run events (mount voice0 journal0 now b))) = voice0.
Proof.
  apply (run_invariant (fun w => unmountUploads (ui w) = voice0)).
  - intros w e <-. apply step_unmountUploads.
  - reflexivity.
Qed.

(** C2, as stated, fails: the handle of an upload is released neither by
    [removeUpload] nor at unmount, whether the record was removed or is still
    there. *)
Lemma upload_handle_never_released :
  let w1 := handleVoiceUpload
              [mkPicked (Build_File (lit "a.mp3") 10) (lit "0.abc") 5]
              (mount [] [] 0 (pageLoad ∅ true)) in
  let w2 := removeUpload (lit "voice_abc") w1 in
  map Upload.id (voiceUploads (ui w1)) = [lit "voice_abc"]
  /\ map Upload.url (voiceUploads (ui w1)) = [blobURL 0]
  /\ voiceUploads (ui w2) = []
  /\ revoked (env w2) = []
  /\ revoked (env (unmount w2)) = []
  /\ revoked (env (unmount w1)) = []
  /\ blobURL 0 ∈ objectURLs (env (unmount w2))
  /\ blobURL 0 ∈ objectURLs (env (unmount w1)).
Proof.
  intros w1 w2. do 6 (split; [reflexivity|]).
  split; cbn; set_solver.
Qed.

(** ** What is persisted *)

Lemma keys_differ : VOICE_KEY <> JOURNAL_KEY.
Proof. discriminate. Qed.

Lemma store_voice (m : gmap jsstring jsstring) (j v v' : jsstring) :
  <[VOICE_KEY := v']> (<[JOURNAL_KEY := j]> (<[VOICE_KEY := v]> m))
  = <[JOURNAL_KEY := j]> (<[VOICE_KEY := v']> m).
Proof.
  rewrite (insert_insert_ne _ VOICE_KEY JOURNAL_KEY) by exact keys_differ.
  now rewrite insert_insert_eq.
Qed.

Lemma step_written_through (items0 : gmap jsstring jsstring) (w : World)
  (e : Event) :
  written_through items0 w -> written_through items0 (step w e).
Proof.
  intros Hinv. destruct e; cbn [step].
  1: { rewrite handleVoiceUpload_eq.
       destruct (makeItems_frame files (env w)) as (Hl & _).
       fields w. unfold written_through in *. setters.
       rewrite Hl, Hinv. apply store_voice. }
  all: fields w; unfold written_through in *; unfold_handlers; handler_steps;
    try exact Hinv; rewrite Hinv;
    first [apply store_voice | apply insert_insert_eq].
Qed.

(** C10.  The first render puts exactly one message in the log, the
    companion's greeting with its fixed text, whatever the store holds.  No
    event writes the log to the store: after any sequence of events the
    store is the one of the page load with the two collections written under
    their keys.  So a reload, which mounts the component again on that store,
    starts from the greeting alone. *)
Theorem chat_starts_with_greeting_never_persisted (voice0 : list Upload.t)
  (journal0 : list Entry.t) (now : Z) (items : gmap jsstring jsstring)
  (speech : bool) (events : list Event) :
  let w0 := mount voice0 journal0 now (pageLoad items speech) in
  let w := run events w0 in
  chatMessages (ui w0) = [Message.mk (IdNumber 1) soul GREETING now]
  /\ written_through items w
  /\ (forall key, key <> VOICE_KEY -> key <> JOURNAL_KEY ->
      localStorage (env w) !! key = items !! key)
  /\ forall voice1 journal1 now1 speech1,
       chatMessages
         (ui (mount voice1 journal1 now1
                (pageLoad (localStorage (env (unmount w))) speech1)))
       = [Message.mk (IdNumber 1) soul GREETING now1].
Proof.
  intros w0 w.
  assert (Hinv : written_through items w).
  { apply run_invariant; [apply step_written_through|reflexivity]. }
  split; [reflexivity|]. split; [exact Hinv|]. split; [|reflexivity].
  intros key Hv Hj. rewrite Hinv.
  rewrite !lookup_insert_ne by congruence. reflexivity.
Qed.

Example chat_is_lost_on_reload :
  let w := run [TypeChat (lit "hello"); Send (lit "0.a") 3;
                ReplyDue 1 1 (lit "0.b") 4]
               (mount [] [] 0 (pageLoad ∅ true)) in
  length (chatMessages (ui w)) = 3
  /\ map Message.text
       (chatMessages (ui (mount [] [] 9 (pageLoad (localStorage (env w)) true))))
     = [GREETING]
  /\ localStorage (env w) !! VOICE_KEY = Some (lit "[]")
  /\ localStorage (env w) !! JOURNAL_KEY = Some (lit "[]").
Proof. repeat split. Qed.

(** ** Ids *)

Lemma uid_agree (prefix r1 r2 : jsstring) :
  uid prefix r1 = uid prefix r2 <-> kept r1 = kept r2.
Proof.
  unfold uid, kept. split.
  - intros H. apply app_inv_head in H. now apply app_inv_head in H.
  - now intros ->.
Qed.

Lemma submseteq_NoDup {A} (l k : list A) : l ⊆+ k -> NoDup k -> NoDup l.
Proof.
  intros Hsub Hk. apply submseteq_Permutation in Hsub as [k' Hperm].
  rewrite Hperm in Hk. now apply NoDup_app in Hk as [Hl _].
Qed.

Lemma map_filter_submseteq {A B} (f : A -> B) (P : A -> Prop)
  `{!forall x, Decision (P x)} (l : list A) :
  map f (filter P l) ⊆+ map f l.
Proof.
  induction l as [|x l IH]; [reflexivity|].
  rewrite filter_cons. destruct (decide (P x)); cbn [map].
  - now apply submseteq_skip.
  - now apply submseteq_cons.
Qed.

Lemma fresh_draws_NoDup (prefix : jsstring) (loaded draws : list jsstring) :
  fresh_draws prefix loaded draws ->
  NoDup (loaded ++ map (uid prefix) draws).
Proof.
  intros (Hl & Hd & Hf). apply NoDup_app. split; [exact Hl|]. split.
  - intros x Hx Hin. apply list_elem_of_In, in_map_iff in Hin as (r & <- & Hr).
    rewrite Forall_forall in Hf. apply (Hf r); [|exact Hx].
    now apply list_elem_of_In.
  - clear Hl Hf. induction draws as [|r draws IH]; [constructor|].
    cbn [map] in *. apply NoDup_cons in Hd as [Hr Hd].
    apply NoDup_cons. split; [|now apply IH].
    intros Hin. apply Hr.
    apply list_elem_of_In, in_map_iff in Hin as (r' & Heq & Hr').
    apply uid_agree in Heq. rewrite <- Heq.
    apply list_elem_of_In, in_map, list_elem_of_In.
    now apply list_elem_of_In.
Qed.

(** If each event adds to the ids of a collection at most what [gen] gives
    for it, distinct ids stay distinct along a run. *)
Lemma unique_along_run {K} (ids : World -> list K)
  (gen : World -> Event -> list K) :
  (forall w e, ids (step w e) ⊆+ gen w e ++ ids w) ->
  forall events w,
    NoDup (ids w ++ along gen events w) -> NoDup (ids (run events w)).
Proof.
  intros Hstep events.
  induction events as [|e events IH]; intros w Hnd.
  - cbn in Hnd. now rewrite app_nil_r in Hnd.
  - change (run (e :: events) w) with (run events (step w e)).
    apply IH. cbn [along] in Hnd.
    eapply submseteq_NoDup; [|exact Hnd].
    rewrite app_assoc. apply submseteq_skips_r.
    rewrite (comm (++) (ids w)). apply Hstep.
Qed.

Lemma along_map {A B} (g : A -> B) (f : World -> Event -> list A)
  (events : list Event) (w : World) :
  along (fun w e => map g (f w e)) events w = map g (along f events w).
Proof.
  revert w. induction events as [|e events IH]; intros w; [reflexivity|].
  cbn [along]. now rewrite map_app, IH.
Qed.

Lemma step_voice_ids (w : World) (e : Event) :
  map Upload.id (voiceUploads (ui (step w e)))
  ⊆+ map (uid (lit "voice")) (voiceDraws w e)
     ++ map Upload.id (voiceUploads (ui w)).
Proof.
  destruct e; cbn [step voiceDraws map app].
  1: { rewrite handleVoiceUpload_eq. fields w. setters.
       rewrite map_app, makeItems_ids, map_map. reflexivity. }
  1: { fields w. unfold removeUpload. setters. apply map_filter_submseteq. }
  all: fields w; unfold_handlers; handler_steps; reflexivity.
Qed.

Lemma step_journal_ids (w : World) (e : Event) :
  map Entry.id (journalEntries (ui (step w e)))
  ⊆+ map (uid (lit "j")) (journalDraws w e)
     ++ map Entry.id (journalEntries (ui w)).
Proof.
  destruct e; cbn [step].
  1: { rewrite handleVoiceUpload_eq. reflexivity. }
  all: fields w; unfold journalDraws; unfold_handlers; handler_steps;
    cbn [map app Entry.id]; first [reflexivity | apply map_filter_submseteq].
Qed.

Lemma step_chat_ids (w : World) (e : Event) :
  map Message.id (chatMessages (ui (step w e)))
  ⊆+ map (fun r36 => IdString (uid (lit "m") r36)) (chatDraws w e)
     ++ map Message.id (chatMessages (ui w)).
Proof.
  destruct e; cbn [step].
  1: { rewrite handleVoiceUpload_eq. reflexivity. }
  all: fields w; unfold chatDraws; unfold_handlers; handler_steps;
    rewrite ?map_app; cbn [map app Message.id];
    first [reflexivity | apply submseteq_nil_l
          | rewrite (comm (++)); reflexivity].
Qed.

(** C8, as amended.  [uid] does not look at the ids in use: an id is its
    prefix, an underscore and the seven characters kept of the draw.  Along
    any sequence of events the ids of a collection are pairwise distinct
    provided the draws that [uid] reads for it differ in the characters kept
    and, for the two collections read from the store, the loaded ids are
    distinct and none of them is made again.  (The greeting's id, the number
    1, differs from every id made by [uid].) *)
Theorem ids_unique_when_draws_differ (voice0 : list Upload.t)
  (journal0 : list Entry.t) (now : Z) (b : Browser) (events : list Event) :
  let w0 := mount voice0 journal0 now b in
  fresh_draws (lit "voice") (map Upload.id voice0) (along voiceDraws events w0) ->
  fresh_draws (lit "j") (map Entry.id journal0) (along journalDraws events w0) ->
  NoDup (map kept (along chatDraws events w0)) ->
  let w := run events w0 in
  NoDup (map Upload.id (voiceUploads (ui w)))
  /\ NoDup (map Entry.id (journalEntries (ui w)))
  /\ NoDup (map Message.id (chatMessages (ui w))).
Proof.
  intros w0 Hv Hj Hc w. split; [|split].
  - apply (unique_along_run (fun w => map Upload.id (voiceUploads (ui w)))
             (fun w e => map (uid (lit "voice")) (voiceDraws w e)));
      [apply step_voice_ids|].
    rewrite along_map. now apply fresh_draws_NoDup.
  - apply (unique_along_run (fun w => map Entry.id (journalEntries (ui w)))
             (fun w e => map (uid (lit "j")) (journalDraws w e)));
      [apply step_journal_ids|].
    rewrite along_map. now apply fresh_draws_NoDup.
  - apply (unique_along_run (fun w => map Message.id (chatMessages (ui w)))
             (fun w e => map (fun r36 => IdString (uid (lit "m") r36))
                             (chatDraws w e)));
      [apply step_chat_ids|].
    rewrite along_map. cbn [mount effectJournalEntries effectVoiceUploads
      browser ui chatMessages map Message.id app].
    apply NoDup_cons. split.
    + intros Hin. apply list_elem_of_In, in_map_iff in Hin as (r & Heq & _).
      discriminate Heq.
    + generalize (along chatDraws events w0) Hc. clear.
      intros draws. induction draws as [|r draws IH]; intros Hd; [constructor|].
      cbn [map] in *. apply NoDup_cons in Hd as [Hr Hd].
      apply NoDup_cons. split; [|now apply IH].
      intros Hin. apply Hr.
      apply list_elem_of_In, in_map_iff in Hin as (r' & Heq & Hr').
      assert (Hu : uid (lit "m") r' = uid (lit "m") r) by congruence.
      apply uid_agree in Hu. rewrite <- Hu.
      apply list_elem_of_In. now apply in_map.
Qed.

Lemma ids_unique_when_draws_differ_witness :
  NoDup (map Upload.id
           (voiceUploads
              (ui (run sample_events
                     (mount sample_loaded [] 0 (pageLoad ∅ true))))))
  /\ NoDup (map Entry.id
              (journalEntries
                 (ui (run sample_events
                        (mount sample_loaded [] 0 (pageLoad ∅ true))))))
  /\ NoDup (map Message.id
              (chatMessages
                 (ui (run sample_events
                        (mount sample_loaded [] 0 (pageLoad ∅ true)))))).
Proof.
  assert (Hv : fresh_draws (lit "voice") (map Upload.id sample_loaded)
                 (along voiceDraws sample_events
                    (mount sample_loaded [] 0 (pageLoad ∅ true)))).
  { split; [|split]; apply (bool_decide_unpack _); vm_compute; exact I. }
  assert (Hj : fresh_draws (lit "j") (map Entry.id [])
                 (along journalDraws sample_events
                    (mount sample_loaded [] 0 (pageLoad ∅ true)))).
  { split; [|split]; apply (bool_decide_unpack _); vm_compute; exact I. }
  assert (Hc : NoDup (map kept
                        (along chatDraws sample_events
                           (mount sample_loaded [] 0 (pageLoad ∅ true))))).
  { apply (bool_decide_unpack _); vm_compute; exact I. }
  exact (ids_unique_when_draws_differ sample_loaded [] 0 (pageLoad ∅ true)
           sample_events Hv Hj Hc).
Defined.

Example sample_session_ids :
  let w := run sample_events (mount sample_loaded [] 0 (pageLoad ∅ true)) in
  map Upload.id (voiceUploads (ui w)) = [lit "voice_4fzyo82"; lit "voice_old"]
  /\ map Message.id (chatMessages (ui w))
     = [IdNumber 1; IdString (lit "m_a1"); IdString (lit "m_a2");
        IdString (lit "m_a3")]
  /\ map Entry.id (journalEntries (ui w)) = [lit "j_k1"].
Proof. repeat split. Qed.

(** C8, as stated, fails: two draws that agree on the seven characters kept
    give the same id, in each of the three collections. *)
Lemma two_draws_one_id :
  let w := run
    [ PickFiles [mkPicked (Build_File (lit "a.mp3") 10) (lit "0.4fzyo82mvyr") 5];
      PickFiles [mkPicked (Build_File (lit "b.mp3") 20) (lit "0.4fzyo82aaaa") 6];
      TypeChat (lit "hello"); Send (lit "0.4fzyo82mvyr") 7;
      TypeChat (lit "again"); Send (lit "0.4fzyo82aaaa") 8;
      TypeTitle (lit "Hi"); TypeBody (lit "you"); SaveLetter (lit "0.4fzyo82mvyr") 9;
      TypeTitle (lit "Ho"); TypeBody (lit "too"); SaveLetter (lit "0.4fzyo82aaaa") 9 ]
    (mount [] [] 0 (pageLoad ∅ true)) in
  map Upload.id (voiceUploads (ui w)) = [lit "voice_4fzyo82"; lit "voice_4fzyo82"]
  /\ map Message.id (chatMessages (ui w))
     = [IdNumber 1; IdString (lit "m_4fzyo82"); IdString (lit "m_4fzyo82")]
  /\ map Entry.id (journalEntries (ui w)) = [lit "j_4fzyo82"; lit "j_4fzyo82"]
  /\ ~ NoDup (map Upload.id (voiceUploads (ui w)))
  /\ ~ NoDup (map Message.id (chatMessages (ui w)))
  /\ ~ NoDup (map Entry.id (journalEntries (ui w))).
Proof.
  intros w.
  assert (Hv : map Upload.id (voiceUploads (ui w))
               = [lit "voice_4fzyo82"; lit "voice_4fzyo82"]) by reflexivity.
  assert (Hm : map Message.id (chatMessages (ui w))
               = [IdNumber 1; IdString (lit "m_4fzyo82");
                  IdString (lit "m_4fzyo82")]) by reflexivity.
  assert (Hj : map Entry.id (journalEntries (ui w))
               = [lit "j_4fzyo82"; lit "j_4fzyo82"]) by reflexivity.
  split; [exact Hv|]. split; [exact Hm|]. split; [exact Hj|].
  rewrite Hv, Hm, Hj. split; [|split].
  - intros Hnd. apply NoDup_cons in Hnd as [Hnot _]. apply Hnot. left.
  - intros Hnd. apply NoDup_cons in Hnd as [_ Hnd].
    apply NoDup_cons in Hnd as [Hnot _]. apply Hnot. left.
  - intros Hnd. apply NoDup_cons in Hnd as [Hnot _]. apply Hnot. left.
Qed.

Lemma chat_starts_with_greeting_never_persisted_witness :
  localStorage
    (env (run sample_events (mount sample_loaded [] 0 (pageLoad ∅ true))))
  !! lit "theme" = None.
Proof.
  destruct (chat_starts_with_greeting_never_persisted sample_loaded [] 0 ∅ true
              sample_events) as (_ & _ & Hother & _).
  rewrite (Hother (lit "theme")) by discriminate. apply lookup_empty.
Defined.

(** * Further properties of the code *)

(** ** [truncate] and [uid] *)

Lemma slice_prefix (s : jsstring) (n : Z) :
  (0 <= n)%Z -> slice s 0 n = take (Z.to_nat n) s.
Proof.
  intros Hn. rewrite <- (slice_from_zero s (Z.to_nat n)).
  now rewrite Z2Nat.id.
Qed.

(** X1.  For every bound [n >= 1], [truncate s n] has at most [n] characters,
    is [s] itself exactly when [s] has at most [n], ends with the ellipsis
    otherwise, and truncating again with the same bound changes nothing. *)
Theorem truncate_bounded_idempotent (s : jsstring) (n : Z) (Hn : (1 <= n)%Z) :
  (Z.of_nat (length (truncate s n)) <= n)%Z
  /\ (truncate s n = s <-> (Z.of_nat (length s) <= n)%Z)
  /\ ((n < Z.of_nat (length s))%Z ->
      truncate s n = take (Z.to_nat (n - 1)) s ++ [ELLIPSIS])
  /\ truncate (truncate s n) n = truncate s n.
Proof.
  assert (Hlong : (n < Z.of_nat (length s))%Z ->
                  truncate s n = take (Z.to_nat (n - 1)) s ++ [ELLIPSIS]).
  { intros Hlt. unfold truncate.
    destruct (Z.gtb_spec (Z.of_nat (length s)) n); [|lia].
    now rewrite slice_prefix by lia. }
  assert (Hshort : (Z.of_nat (length s) <= n)%Z -> truncate s n = s).
  { intros Hle. unfold truncate.
    destruct (Z.gtb_spec (Z.of_nat (length s)) n); [lia|reflexivity]. }
  assert (Hlen : (Z.of_nat (length (truncate s n)) <= n)%Z).
  { destruct (Z.le_gt_cases (Z.of_nat (length s)) n) as [Hle|Hgt].
    - now rewrite Hshort.
    - rewrite Hlong by lia. rewrite length_app, length_take.
      cbn [length]. lia. }
  split; [exact Hlen|]. split; [|split; [exact Hlong|]].
  - split; [|exact Hshort].
    intros Heq. destruct (Z.le_gt_cases (Z.of_nat (length s)) n) as [Hle|Hgt];
      [exact Hle|].
    rewrite <- Heq. exact Hlen.
  - unfold truncate at 1.
    destruct (Z.gtb_spec (Z.of_nat (length (truncate s n))) n); [lia|reflexivity].
Qed.

Lemma truncate_bounded_idempotent_witness :
  Z.of_nat (length (truncate (repeat 0x61%N 200) 160)) = 160%Z
  /\ truncate (truncate (repeat 0x61%N 200) 160) 160
     = truncate (repeat 0x61%N 200) 160.
Proof.
  destruct (truncate_bounded_idempotent (repeat 0x61%N 200) 160)
    as (_ & _ & _ & Hidem); [lia|].
  split; [reflexivity|exact Hidem].
Defined.

(** X2.  An id made by [uid] is the prefix, an underscore and at most seven
    characters of the draw; a draw whose text has no more than two characters
    (the text "0" of the draw zero) leaves nothing after the underscore, and a
    text of nine characters or more gives exactly seven. *)
Theorem uid_shape (prefix r36 : jsstring) :
  uid prefix r36 = prefix ++ lit "_" ++ take 7 (drop 2 r36)
  /\ length (uid prefix r36) <= length prefix + 8
  /\ (length r36 <= 2 -> uid prefix r36 = prefix ++ lit "_")
  /\ (9 <= length r36 -> length (uid prefix r36) = length prefix + 8).
Proof.
  assert (Hkept : slice r36 2 9 = take 7 (drop 2 r36)).
  { unfold slice, rel_index.
    change (2 <? 0)%Z with false. change (9 <? 0)%Z with false. cbv iota.
    destruct (Z.min_spec 2 (Z.of_nat (length r36))) as [[H2 ->]|[H2 ->]];
      destruct (Z.min_spec 9 (Z.of_nat (length r36))) as [[H9 ->]|[H9 ->]];
      try lia.
    - reflexivity.
    - change (Z.to_nat 2) with 2. rewrite !firstn_all2;
        [reflexivity|rewrite length_drop; lia|rewrite length_drop; lia].
    - rewrite Z.sub_diag, Nat2Z.id. cbn [Z.to_nat take].
      rewrite !drop_ge by lia. reflexivity. }
  unfold uid. rewrite Hkept. split; [reflexivity|].
  rewrite !length_app, length_take, length_drop. cbn [length lit map
    list_ascii_of_string]. split; [lia|]. split.
  - intros Hshort. rewrite drop_ge by lia. reflexivity.
  - intros Hlong. lia.
Qed.

Example uid_of_draw_zero : uid (lit "m") (lit "0") = lit "m_".
Proof. reflexivity. Qed.

(** Setters applied to a world given by its fields, innermost first. *)
Ltac evaluate :=
  cbv [setVoiceUploads setJournalEntries setChatMessages setChatInput
       setStoryPrompt setIsHealing setHealingProgress setHealingTimerRef
       setTitle setBody effectVoiceUploads effectJournalEntries browser
       setItem set_timers addTimer alert
       ui env voiceUploads journalEntries chatMessages chatInput storyPrompt
       isHealing healingProgress healingTimerRef unmountUploads formTitle
       formBody localStorage timers nextTimer objectURLs nextObjectURL revoked
       alerts speechSynthesis spoken fst snd] in *.

(** ** The journal, operation by operation *)

Lemma filter_filter_comm {A} (P Q : A -> Prop) `{!forall x, Decision (P x)}
  `{!forall x, Decision (Q x)} (l : list A) :
  filter P (filter Q l) = filter Q (filter P l).
Proof.
  induction l as [|x l IH]; [reflexivity|].
  rewrite !filter_cons.
  destruct (decide (Q x)), (decide (P x)); rewrite ?filter_cons;
    rewrite ?decide_True by assumption; rewrite ?decide_False by assumption;
    now rewrite ?IH.
Qed.

(** X3.  [deleteJournalEntry] removes every entry that has the id and no
    other, in place; deleting the same id again changes nothing, and two
    deletions can be done in either order. *)
Theorem deleteJournalEntry_algebra (a b : jsstring) (w : World) :
  journalEntries (ui (deleteJournalEntry a w))
  = filter (fun e => Entry.id e ≠ a) (journalEntries (ui w))
  /\ Forall (fun e => Entry.id e <> a)
            (journalEntries (ui (deleteJournalEntry a w)))
  /\ deleteJournalEntry a (deleteJournalEntry a w) = deleteJournalEntry a w
  /\ deleteJournalEntry a (deleteJournalEntry b w)
     = deleteJournalEntry b (deleteJournalEntry a w).
Proof.
  split; [reflexivity|]. split; [|split].
  - fields w. unfold deleteJournalEntry. setters.
    apply Forall_forall. intros e He. apply list_elem_of_filter in He. tauto.
  - fields w. unfold deleteJournalEntry. evaluate.
    rewrite filter_twice, insert_insert_eq. reflexivity.
  - fields w. unfold deleteJournalEntry. evaluate.
    rewrite !insert_insert_eq.
    rewrite (filter_filter_comm (fun e => Entry.id e ≠ a)). reflexivity.
Qed.

(** X4.  A second [save] right after a [save] never adds an entry: after a
    rejected one the form is as it was, after an accepted one the form is
    empty, and either way the second call only shows the notice. *)
Theorem save_twice_adds_once (r36 r36' : jsstring) (now now' : Z) (w : World) :
  let w1 := save r36 now w in
  save r36' now' w1 = browser (alert NOTICE) w1
  /\ journalEntries (ui (save r36' now' w1)) = journalEntries (ui w1)
  /\ (trim (formTitle (ui w)) = [] \/ trim (formBody (ui w)) = [] ->
      formTitle (ui w1) = formTitle (ui w) /\ formBody (ui w1) = formBody (ui w))
  /\ (trim (formTitle (ui w)) <> [] -> trim (formBody (ui w)) <> [] ->
      formTitle (ui w1) = [] /\ formBody (ui w1) = []).
Proof.
  intros w1.
  assert (Hsecond : save r36' now' w1 = browser (alert NOTICE) w1).
  { subst w1. fields w. unfold save, addJournalEntry. evaluate.
    destruct (trim formTitle0) as [|c t] eqn:Et; evaluate;
      [now rewrite Et|].
    destruct (trim formBody0) as [|d b] eqn:Eb; evaluate;
      [now rewrite Et, Eb|].
    reflexivity. }
  split; [exact Hsecond|]. split; [now rewrite Hsecond|]. split.
  - intros Hblank. subst w1. fields w. unfold save. setters.
    destruct Hblank as [-> | ->]; [now split|].
    destruct (trim formTitle0); now split.
  - intros Ht Hb. subst w1. fields w. unfold save, addJournalEntry. setters.
    destruct (trim formTitle0); [congruence|].
    destruct (trim formBody0); [congruence|]. now split.
Qed.

Lemma save_twice_adds_once_witness :
  let w := setBody (lit "you") (setTitle (lit "Hi")
             (mount [] [] 0 (pageLoad ∅ true))) in
  length (journalEntries (ui (save (lit "0.b") 2 (save (lit "0.a") 1 w)))) = 1
  /\ formTitle (ui (save (lit "0.a") 1 w)) = [].
Proof.
  intros w.
  destruct (save_twice_adds_once (lit "0.a") (lit "0.b") 1 2 w)
    as (_ & Hsame & _ & Hclear).
  split; [rewrite Hsame; reflexivity|].
  apply Hclear; discriminate.
Defined.

(** ** The chat, operation by operation *)

(** X5.  [sendChat] empties the input, so a second call before anything is
    typed is a no-op: one message and one reply per text. *)
Theorem sendChat_twice_sends_once (r36 r36' : jsstring) (now now' : Z)
  (w : World) :
  sendChat r36' now' (sendChat r36 now w) = sendChat r36 now w.
Proof.
  fields w. unfold sendChat. evaluate.
  destruct (trim chatInput0) as [|c t] eqn:Et; evaluate.
  - now rewrite Et.
  - reflexivity.
Qed.

(** ** The healing timer along a session *)

Lemma cycles_next (k : nat) :
  k < 6 -> PrimFloat.add (cycles k) 1%float = cycles (S k).
Proof. intros Hk. destruct k as [|[|[|[|[|[|k]]]]]]; try lia; reflexivity. Qed.

Lemma cycles_last (k : nat) :
  k < 6 -> PrimFloat.leb total (cycles (S k)) = bool_decide (k = 5).
Proof. intros Hk. destruct k as [|[|[|[|[|[|k]]]]]]; try lia; reflexivity. Qed.

Lemma mount_healing_inv (voice0 : list Upload.t) (journal0 : list Entry.t)
  (now : Z) (items : gmap jsstring jsstring) (speech : bool) :
  healing_inv (mount voice0 journal0 now (pageLoad items speech)).
Proof.
  unfold healing_inv. split; [apply mount_one_schedule|]. cbn.
  split; [discriminate|]. split; [|split; [discriminate|now left]].
  intros i t. rewrite lookup_empty. discriminate.
Qed.

Lemma step_healing_inv (w : World) (e : Event) :
  healing_inv w -> healing_inv (step w e).
Proof.
  intros (H1 & H2 & H3 & H4 & H5).
  split; [now apply step_one_schedule|].
  destruct e; cbn [step].
  1: { rewrite handleVoiceUpload_eq.
       destruct (makeItems_frame files (env w)) as (_ & Ht & Hn & _).
       fields w. unfold one_schedule in *. setters. rewrite Ht, Hn. auto. }
  all: fields w; unfold one_schedule in *; unfold_handlers; handler_steps.
  all: try (split; [exact H2|]; split; [exact H3|]; split; [exact H4|exact H5]).
  all: repeat match goal with
         | H : _ !! _ = Some (Interval _) |- _ =>
             pose proof (H3 _ _ H); pose proof (H1 _ _ H) as [? ?]; revert H
         | H : _ !! _ = Some (Timeout _) |- _ => pose proof (H3 _ _ H); revert H
         end; intros; try discriminate.
  all: split;
    [intros j Hj;
     first [apply H2 in Hj; lia
           | simplify_eq; first [lia | specialize (H2 _ eq_refl); lia]]|].
  all: split;
    [intros j t;
     repeat first [rewrite lookup_insert | rewrite lookup_delete | case_decide];
     intros Hj; simplify_eq; try lia; try (apply H3 in Hj; lia)|].
  all: split;
    [intros j t Hj;
     repeat first [rewrite lookup_insert | rewrite lookup_delete | case_decide];
     try (now apply H4); try (apply H2 in Hj; lia);
     simplify_eq; try discriminate; try (now apply (H4 _ _ eq_refl))|].
  all: try (left; reflexivity); try (right; reflexivity); try assumption.
  all: try (exists nextTimer0, 0; split; [lia|]; split; [reflexivity|];
            split; [apply lookup_insert_eq|reflexivity]).
  all: destruct H5 as (i5 & k & Hk & Href & Htim & Hprog).
  all: try (exists i5, k; split; [exact Hk|]; split; [exact Href|];
            split; [|exact Hprog];
            first [rewrite lookup_insert_ne by (apply H2 in Href; lia)
                  | rewrite lookup_delete_ne by congruence]; exact Htim).
  all: simplify_eq.
  all: rewrite cycles_next in * by exact Hk.
  all: match goal with
       | H : PrimFloat.leb _ _ = false |- _ =>
           rewrite cycles_last in H by exact Hk; apply bool_decide_eq_false in H
       end.
  all: eexists _, (S k); split; [lia|]; split; [reflexivity|];
         split; [apply lookup_insert_eq|reflexivity].
Qed.

Lemma run_healing_inv (voice0 : list Upload.t) (journal0 : list Entry.t)
  (now : Z) (items : gmap jsstring jsstring) (speech : bool)
  (events : list Event) :
  healing_inv (run events (mount voice0 journal0 now (pageLoad items speech))).
Proof.
  apply run_invariant; [apply step_healing_inv|apply mount_healing_inv].
Qed.

Lemma progressAt_bounds (k : nat) :
  k <= 6 ->
  PrimFloat.leb 0%float (progressAt k) = true
  /\ PrimFloat.leb (progressAt k) 100%float = true
  /\ PrimFloat.leb (progressAt k) (progressAt k) = true
  /\ (k < 6 -> PrimFloat.leb (progressAt k) (progressAt (S k)) = true).
Proof.
  intros Hk. destruct k as [|[|[|[|[|[|[|k]]]]]]]; try lia;
    (split; [reflexivity|]; split; [reflexivity|]; split; [reflexivity|]);
    intros Hlt; try lia; reflexivity.
Qed.

(** X6.  In every state of a session started from a page load: while the
    session is marked as running, the ref holds the id of an active interval
    that has counted [k < 6] cycles and the progress is [k / 6 * 100]; when
    it is not running the progress is 0 (never started, or stopped) or 100
    (completed). *)
Theorem running_session_counts_below_six (voice0 : list Upload.t)
  (journal0 : list Entry.t) (now : Z) (items : gmap jsstring jsstring)
  (speech : bool) (events : list Event) :
  let w := run events (mount voice0 journal0 now (pageLoad items speech)) in
  (isHealing (ui w) = true ->
   exists i k, k < 6
     /\ healingTimerRef (ui w) = Some i
     /\ timers (env w) !! i = Some (Interval (cycles k))
     /\ healingProgress (ui w) = progressAt k)
  /\ (isHealing (ui w) = false ->
      healingProgress (ui w) = 0%float \/ healingProgress (ui w) = 100%float).
Proof.
  intros w.
  destruct (run_healing_inv voice0 journal0 now items speech events)
    as (_ & _ & _ & _ & H5).
  fold w in H5. split; intros Hrun; rewrite Hrun in H5; exact H5.
Qed.

Lemma running_session_counts_below_six_witness :
  let w := run [Start; Tick 1; Tick 1]
               (mount [] [] 0 (pageLoad ∅ true)) in
  exists i k, k < 6
    /\ healingTimerRef (ui w) = Some i
    /\ timers (env w) !! i = Some (Interval (cycles k))
    /\ healingProgress (ui w) = progressAt k.
Proof.
  intros w.
  apply (running_session_counts_below_six [] [] 0 ∅ true
           [Start; Tick 1; Tick 1]).
  reflexivity.
Defined.

(** X7.  In every state of a session started from a page load the progress
    lies between 0 and 100, and while the session runs no callback of an
    interval lowers it. *)
Theorem progress_bounded_never_lowered_by_tick (voice0 : list Upload.t)
  (journal0 : list Entry.t) (now : Z) (items : gmap jsstring jsstring)
  (speech : bool) (events : list Event) :
  let w := run events (mount voice0 journal0 now (pageLoad items speech)) in
  PrimFloat.leb 0%float (healingProgress (ui w)) = true
  /\ PrimFloat.leb (healingProgress (ui w)) 100%float = true
  /\ forall i, isHealing (ui w) = true ->
       PrimFloat.leb (healingProgress (ui w))
                     (healingProgress (ui (step w (Tick i)))) = true.
Proof.
  intros w.
  pose proof (run_healing_inv voice0 journal0 now items speech events) as Hinv.
  fold w in Hinv. destruct Hinv as (H1 & _ & _ & _ & H5).
  destruct (isHealing (ui w)) eqn:Hrun.
  - destruct H5 as (i5 & k & Hk & Href & Htim & Hprog).
    destruct (progressAt_bounds k) as (Hlo & Hhi & Hrefl & Hup); [lia|].
    rewrite Hprog. split; [exact Hlo|]. split; [exact Hhi|].
    intros i _. cbn [step].
    destruct (timers (env w) !! i) as [[c|t]|] eqn:Hi.
    + destruct (H1 _ _ Hi) as [_ Hri]. assert (i = i5) by congruence. subst i.
      assert (c = cycles k) by congruence. subst c.
      assert (Hr : running i5 (cycles k) w) by (split; [exact Htim|]; now split).
      destruct (PrimFloat.leb total (cycles (S k))) eqn:Hlast.
      * rewrite <- cycles_next in Hlast by exact Hk.
        destruct (tick_completes i5 _ w Hr Hlast) as (-> & _). exact Hhi.
      * destruct (tick_continues i5 _ (cycles (S k)) w Hr) as (_ & ->);
          [symmetry; now apply cycles_next|exact Hlast|].
        apply Hup, Hk.
    + unfold tick. rewrite Hi, Hprog. exact Hrefl.
    + unfold tick. rewrite Hi, Hprog. exact Hrefl.
  - split; [|split; [|discriminate]];
      destruct H5 as [-> | ->]; reflexivity.
Qed.

(** X8.  In every state of a session started from a page load, the healing
    controls leave the pending chat replies alone: after Start, after Stop
    and after any callback of an interval, a timeout that was pending is
    still pending with the same text. *)
Theorem healing_controls_keep_pending_replies (voice0 : list Upload.t)
  (journal0 : list Entry.t) (now : Z) (items : gmap jsstring jsstring)
  (speech : bool) (events : list Event) (i : N) (text : jsstring) :
  let w := run events (mount voice0 journal0 now (pageLoad items speech)) in
  timers (env w) !! i = Some (Timeout text) ->
  timers (env (step w Start)) !! i = Some (Timeout text)
  /\ timers (env (step w Stop)) !! i = Some (Timeout text)
  /\ forall j, timers (env (step w (Tick j))) !! i = Some (Timeout text).
Proof.
  intros w Hi.
  pose proof (run_healing_inv voice0 journal0 now items speech events) as Hinv.
  fold w in Hinv. destruct Hinv as (H1 & H2 & H3 & H4 & _).
  clearbody w. fields w. unfold one_schedule in *. setters.
  pose proof (H3 _ _ Hi) as Hlt.
  split; [|split; [|intros j]]; cbn [step]; unfold_handlers; handler_steps;
    repeat first [rewrite lookup_insert | rewrite lookup_delete | case_decide];
    simplify_eq; try exact Hi; try lia;
    try (exfalso; eapply H4; [reflexivity|exact Hi]);
    repeat match goal with
      | H : _ !! _ = Some (Interval _) |- _ =>
          pose proof (H1 _ _ H) as [? ?]; revert H
      end; intros; simplify_eq;
    try (exfalso; eapply H4; [reflexivity|exact Hi]).
Qed.

Lemma healing_controls_keep_pending_replies_witness :
  let w := run [TypeChat (lit "hello"); Send (lit "0.a") 3; Start]
               (mount [] [] 0 (pageLoad ∅ true)) in
  timers (env (step w Stop)) !! 1%N = Some (Timeout (lit "hello")).
Proof.
  intros w.
  apply (healing_controls_keep_pending_replies [] [] 0 ∅ true
           [TypeChat (lit "hello"); Send (lit "0.a") 3; Start] 1 (lit "hello")).
  reflexivity.
Defined.

(** X9.  In every state of a session started from a page load, the chat
    leaves the healing session alone: sending, a reply coming due and
    clearing the log change neither the flag, the progress and the ref nor
    any active interval. *)
Theorem chat_keeps_healing_session (voice0 : list Upload.t)
  (journal0 : list Entry.t) (now : Z) (items : gmap jsstring jsstring)
  (speech : bool) (events : list Event) (e : Event) :
  let w := run events (mount voice0 journal0 now (pageLoad items speech)) in
  match e with Send _ _ | ReplyDue _ _ _ _ | ClearChat => True | _ => False end ->
  isHealing (ui (step w e)) = isHealing (ui w)
  /\ healingProgress (ui (step w e)) = healingProgress (ui w)
  /\ healingTimerRef (ui (step w e)) = healingTimerRef (ui w)
  /\ forall i c, timers (env w) !! i = Some (Interval c) ->
       timers (env (step w e)) !! i = Some (Interval c).
Proof.
  intros w He.
  pose proof (run_healing_inv voice0 journal0 now items speech events) as Hinv.
  fold w in Hinv. destruct Hinv as (_ & _ & H3 & _).
  clearbody w. fields w. setters.
  destruct e; try contradiction; cbn [step]; unfold_handlers; handler_steps;
    (split; [reflexivity|]; split; [reflexivity|]; split; [reflexivity|]);
    intros j c Hj; pose proof (H3 _ _ Hj);
    repeat first [rewrite lookup_insert | rewrite lookup_delete | case_decide];
    simplify_eq; try exact Hj; try lia.
Qed.

Lemma chat_keeps_healing_session_witness :
  let w := run [Start; Tick 1; TypeChat (lit "hello")]
               (mount [] [] 0 (pageLoad ∅ true)) in
  timers (env (step w (Send (lit "0.a") 3))) !! 1%N = Some (Interval 1%float)
  /\ timers (env (step w (Send (lit "0.a") 3))) !! 2%N
     = Some (Timeout (lit "hello")).
Proof.
  intros w. split; [|reflexivity].
  apply (chat_keeps_healing_session [] [] 0 ∅ true
           [Start; Tick 1; TypeChat (lit "hello")] (Send (lit "0.a") 3) I).
  reflexivity.
Defined.

(** ** Speech *)

Lemma makeItems_same (files : list Picked) (b1 b2 : Browser) :
  objectURLs b1 = objectURLs b2 ->
  nextObjectURL b1 = nextObjectURL b2 ->
  fst (makeItems files b1) = fst (makeItems files b2)
  /\ objectURLs (snd (makeItems files b1)) = objectURLs (snd (makeItems files b2))
  /\ nextObjectURL (snd (makeItems files b1))
     = nextObjectURL (snd (makeItems files b2)).
Proof.
  revert b1 b2. induction files as [|f files IH]; intros b1 b2 Hu Hn.
  - now repeat split.
  - rewrite !makeItems_cons. cbn [fst snd].
    destruct (IH (snd (createObjectURL b1)) (snd (createObjectURL b2)))
      as (Hi & Hu' & Hn'); [cbn; now rewrite Hu, Hn|cbn; now rewrite Hn|].
    rewrite Hi, Hu', Hn'. cbn [createObjectURL fst]. now rewrite Hn.
Qed.

Lemma step_same_but_speech (w1 w2 : World) (e : Event) :
  same_but_speech w1 w2 -> same_but_speech (step w1 e) (step w2 e).
Proof.
  intros (Hui & Hl & Ht & Hn & Hu & Hno & Hr & Ha).
  destruct e; cbn [step].
  1: { rewrite !handleVoiceUpload_eq.
       destruct (makeItems_same files (env w1) (env w2) Hu Hno) as (Hi & Hu' & Hno').
       destruct (makeItems_frame files (env w1)) as (Hl1 & Ht1 & Hn1 & Hr1 & Ha1 & _).
       destruct (makeItems_frame files (env w2)) as (Hl2 & Ht2 & Hn2 & Hr2 & Ha2 & _).
       unfold same_but_speech. evaluate.
       rewrite Hi, Hui, Hl1, Hl2, Hl, Ht1, Ht2, Ht, Hn1, Hn2, Hn, Hu', Hno',
         Hr1, Hr2, Hr, Ha1, Ha2, Ha. now repeat split. }
  all: destruct w1 as [c1 b1], w2 as [c2 b2]; cbn [ui env] in *; subst c2;
    destruct b1, b2, c1; unfold same_but_speech; setters; subst;
    unfold_handlers; handler_steps; now repeat split.
Qed.

Lemma step_silent (w : World) (e : Event) :
  speechSynthesis (env w) = false /\ spoken (env w) = [] ->
  speechSynthesis (env (step w e)) = false /\ spoken (env (step w e)) = [].
Proof.
  intros Hinv. destruct e; cbn [step].
  1: { rewrite handleVoiceUpload_eq.
       destruct (makeItems_frame files (env w)) as (_ & _ & _ & _ & _ & Hs & Hp & _).
       fields w. setters. now rewrite Hs, Hp. }
  all: fields w; unfold_handlers; handler_steps; destruct Hinv;
    first [discriminate | now split].
Qed.

(** X10.  [speakText] is silent without the speech capability and never
    feeds back into the component: along any sequence of events nothing is
    said in a browser without the capability, and the component, the store,
    the timers, the object URLs and the alerts are the same as in a browser
    that has it. *)
Theorem speech_is_fire_and_forget (voice0 : list Upload.t)
  (journal0 : list Entry.t) (now : Z) (items : gmap jsstring jsstring)
  (events : list Event) :
  spoken (env (run events (mount voice0 journal0 now (pageLoad items false))))
  = []
  /\ same_but_speech
       (run events (mount voice0 journal0 now (pageLoad items true)))
       (run events (mount voice0 journal0 now (pageLoad items false))).
Proof.
  split.
  - apply (run_invariant
             (fun w => speechSynthesis (env w) = false /\ spoken (env w) = [])).
    + apply step_silent.
    + now split.
  - generalize (mount voice0 journal0 now (pageLoad items true))
               (mount voice0 journal0 now (pageLoad items false))
               (conj (eq_refl : ui (mount voice0 journal0 now (pageLoad items true))
                                = ui (mount voice0 journal0 now (pageLoad items false)))
                  (conj eq_refl (conj eq_refl (conj eq_refl (conj eq_refl
                    (conj eq_refl (conj eq_refl eq_refl))))))
                : same_but_speech
                    (mount voice0 journal0 now (pageLoad items true))
                    (mount voice0 journal0 now (pageLoad items false))).
    unfold run. induction events as [|e events IH]; intros w1 w2 Hsame;
      [exact Hsame|].
    cbn [fold_left]. apply IH. now apply step_same_but_speech.
Qed.

(** ** The upload registry along a session *)

Lemma lit_inj (s1 s2 : string) : lit s1 = lit s2 -> s1 = s2.
Proof.
  unfold lit. intros H.
  rewrite <- (string_of_list_ascii_of_string s1),
          <- (string_of_list_ascii_of_string s2).
  f_equal. revert H.
  generalize (list_ascii_of_string s1) (list_ascii_of_string s2).
  intros l1. induction l1 as [|a l1 IH]; intros [|b l2] H;
    try discriminate H; [reflexivity|].
  cbn [map] in H. injection H as Hab Hl. f_equal; [|now apply IH].
  rewrite <- (ascii_N_embedding a), <- (ascii_N_embedding b). now rewrite Hab.
Qed.

Lemma blobURL_inj (n m : N) : blobURL n = blobURL m -> n = m.
Proof.
  unfold blobURL, decimal. intros H. apply app_inv_head, lit_inj in H.
  apply N2Z.inj, DecimalZ.to_int_inj.
  assert (Hs : Some (Z.to_int (Z.of_N n)) = Some (Z.to_int (Z.of_N m))).
  { rewrite <- !NilEmpty.isi. now rewrite H. }
  now injection Hs.
Qed.

Lemma makeItems_fields (files : list Picked) (b : Browser) :
  map Upload.name (fst (makeItems files b)) = map (fun f => file_name (file f)) files
  /\ map Upload.size (fst (makeItems files b)) = map (fun f => file_size (file f)) files
  /\ map Upload.createdAt (fst (makeItems files b)) = map file_now files
  /\ map Upload.url (fst (makeItems files b))
     = map (fun k => blobURL (nextObjectURL b + N.of_nat k)%N)
           (seq 0 (length files))
  /\ nextObjectURL (snd (makeItems files b))
     = (nextObjectURL b + N.of_nat (length files))%N
  /\ forall u, u ∈ objectURLs (snd (makeItems files b)) <->
       u ∈ objectURLs b
       \/ exists k, k < length files
                    /\ u = blobURL (nextObjectURL b + N.of_nat k)%N.
Proof.
  revert b. induction files as [|f files IH]; intros b.
  - cbn. rewrite N.add_0_r. repeat split; try tauto.
    + intros [H|(k & Hk & _)]; [exact H|lia].
  - rewrite makeItems_cons. cbn [fst snd map length seq Upload.name Upload.size
      Upload.createdAt Upload.url].
    destruct (IH (snd (createObjectURL b))) as (Hn & Hs & Hc & Hu & Hnext & Hlive).
    rewrite Hn, Hs, Hc, Hu, Hnext. cbn [createObjectURL fst snd nextObjectURL].
    split; [reflexivity|]. split; [reflexivity|]. split; [reflexivity|].
    split; [|split].
    + rewrite N.add_0_r. f_equal. rewrite <- seq_shift, map_map.
      apply map_ext. intros k. f_equal. lia.
    + lia.
    + intros u. rewrite Hlive. cbn [createObjectURL snd objectURLs nextObjectURL].
      rewrite elem_of_union, elem_of_singleton. split.
      * intros [[->|H]|(k & Hk & ->)].
        -- right. exists 0. split; [lia|]. now rewrite N.add_0_r.
        -- now left.
        -- right. exists (S k). split; [lia|]. f_equal. lia.
      * intros [H|(k & Hk & ->)]; [left; now right|].
        destruct k as [|k].
        -- left. left. now rewrite N.add_0_r.
        -- right. exists k. split; [lia|]. f_equal. lia.
Qed.

(** X11.  [handleVoiceUpload] puts one record per picked file in front of the
    records already there, in the order of the files, with the name and the
    size of each file; the records that were there follow unchanged, and the
    new collection is written to the store.  With no file picked the records
    stay as they are. *)
Theorem handleVoiceUpload_prepends (files : list Picked) (w : World) :
  let w' := handleVoiceUpload files w in
  length (voiceUploads (ui w')) = length files + length (voiceUploads (ui w))
  /\ map Upload.name (take (length files) (voiceUploads (ui w')))
     = map (fun f => file_name (file f)) files
  /\ map Upload.size (take (length files) (voiceUploads (ui w')))
     = map (fun f => file_size (file f)) files
  /\ drop (length files) (voiceUploads (ui w')) = voiceUploads (ui w)
  /\ localStorage (env w') !! VOICE_KEY
     = Some (JSON_stringify (JArray (map Upload.toJSON (voiceUploads (ui w')))))
  /\ (files = [] -> voiceUploads (ui w') = voiceUploads (ui w)).
Proof.
  intros w'. subst w'. rewrite handleVoiceUpload_eq.
  destruct (makeItems_fields files (env w)) as (Hn & Hs & _).
  assert (Hlen : length (fst (makeItems files (env w))) = length files).
  { rewrite <- (length_map Upload.name), Hn. apply length_map. }
  destruct (makeItems files (env w)) as [items b'] eqn:Eitems.
  cbn [fst snd] in *. clear Eitems.
  cbn [effectVoiceUploads setVoiceUploads browser setItem ui env
       voiceUploads localStorage].
  rewrite length_app, Hlen, <- Hlen, take_app_length, drop_app_length.
  split; [reflexivity|]. split; [exact Hn|]. split; [exact Hs|].
  split; [reflexivity|]. split; [apply lookup_insert_eq|].
  intros ->. now destruct items.
Qed.

Lemma step_handles_inv (w : World) (e : Event) :
  handles_inv w -> handles_inv (step w e).
Proof.
  intros (Hrec & Hnd & Hlive). destruct e; cbn [step].
  1: { rewrite handleVoiceUpload_eq.
       destruct (makeItems_fields files (env w)) as (_ & _ & _ & Hu & Hnext & Hl).
       destruct (makeItems files (env w)) as [items b'] eqn:Eitems.
       cbn [fst snd] in *. clear Eitems.
       destruct w as [c b]. destruct c. unfold handles_inv in *.
       cbn [effectVoiceUploads setVoiceUploads browser setItem ui env
            voiceUploads objectURLs nextObjectURL] in *.
       rewrite Hnext. split; [|split].
       - apply Forall_app. split.
         + apply Forall_forall. intros v Hv.
           assert (Hin : Upload.url v ∈ map Upload.url items).
           { apply list_elem_of_In, in_map, list_elem_of_In, Hv. }
           rewrite Hu in Hin.
           apply list_elem_of_In, in_map_iff in Hin as (k & Hk & Hin).
           apply in_seq in Hin. exists (nextObjectURL b + N.of_nat k)%N.
           split; [lia|now symmetry].
         + eapply Forall_impl; [exact Hrec|].
           intros v (n & Hn & Hv). exists n. split; [lia|exact Hv].
       - rewrite map_app, Hu. apply NoDup_app. split; [|split; [|exact Hnd]].
         + generalize (length files). intros m.
           apply NoDup_fmap_2_strong; [|apply NoDup_seq].
           intros k1 k2 _ _ Heq. apply blobURL_inj in Heq. lia.
         + intros u Hin Hold.
           apply list_elem_of_In, in_map_iff in Hin as (k & <- & _).
           apply list_elem_of_In, in_map_iff in Hold as (v & Hv & Hin).
           rewrite Forall_forall in Hrec.
           destruct (Hrec v) as (n & Hn & Hurl); [now apply list_elem_of_In|].
           rewrite Hurl in Hv. apply blobURL_inj in Hv. lia.
       - intros n Hn. apply Hl.
         destruct (N.lt_ge_cases n (nextObjectURL b)) as [Hold|Hnew].
         + left. now apply Hlive.
         + right. exists (N.to_nat (n - nextObjectURL b)). split; [lia|].
           f_equal. lia. }
  1: { fields w. unfold handles_inv in *. unfold removeUpload. evaluate.
       split; [|split; [|exact Hlive]].
       - apply Forall_forall. intros v Hv. apply list_elem_of_filter in Hv as [_ Hv].
         rewrite Forall_forall in Hrec. now apply Hrec.
       - eapply submseteq_NoDup; [apply map_filter_submseteq|exact Hnd]. }
  all: fields w; unfold handles_inv in *; unfold_handlers; handler_steps;
    (split; [exact Hrec|]; split; [exact Hnd|exact Hlive]).
Qed.

(** X12.  In a session that starts with no stored upload, the records of the
    registry hold pairwise different object URLs and every one of them is
    still live: each record owns its handle, and nothing releases it while
    the component is mounted. *)
Theorem uploads_own_live_handles (journal0 : list Entry.t) (now : Z)
  (items : gmap jsstring jsstring) (speech : bool) (events : list Event) :
  let w := run events (mount [] journal0 now (pageLoad items speech)) in
  NoDup (map Upload.url (voiceUploads (ui w)))
  /\ Forall (fun v => Upload.url v ∈ objectURLs (env w)) (voiceUploads (ui w)).
Proof.
  intros w.
  assert (Hinv : handles_inv w).
  { apply run_invariant; [apply step_handles_inv|].
    split; [constructor|]. split; [constructor|]. cbn. intros n Hn. lia. }
  destruct Hinv as (Hrec & Hnd & Hlive). split; [exact Hnd|].
  eapply Forall_impl; [exact Hrec|]. intros v (n & Hn & ->). now apply Hlive.
Qed.

(** ** Unmounting *)

Lemma revoke_all_frame (l : list Upload.t) (b : Browser) :
  let b' := fold_left (fun b' v => revokeObjectURL (Upload.url v) b') l b in
  localStorage b' = localStorage b /\ timers b' = timers b
  /\ nextTimer b' = nextTimer b /\ alerts b' = alerts b /\ spoken b' = spoken b.
Proof.
  revert b. induction l as [|v l IH]; intros b; [now repeat split|].
  cbn [fold_left]. destruct (IH (revokeObjectURL (Upload.url v) b))
    as (-> & -> & -> & -> & ->). now repeat split.
Qed.

(** X13.  The cleanup at unmount calls [URL.revokeObjectURL] once for each
    record that was loaded when the component mounted, in their order, and
    for no other: what was uploaded or deleted during the session makes no
    difference.  It leaves the component, the store and the timers as they
    are; an interval that is running keeps running. *)
Theorem unmount_revokes_the_loaded_records (voice0 : list Upload.t)
  (journal0 : list Entry.t) (now : Z) (items : gmap jsstring jsstring)
  (speech : bool) (events : list Event) :
  let w := run events (mount voice0 journal0 now (pageLoad items speech)) in
  revoked (env (unmount w)) = rev (map Upload.url voice0)
  /\ ui (unmount w) = ui w
  /\ localStorage (env (unmount w)) = localStorage (env w)
  /\ timers (env (unmount w)) = timers (env w).
Proof.
  intros w.
  assert (Hnone : nothing_released (pageLoad items speech) w).
  { apply run_invariant; [apply step_nothing_released|]. split; reflexivity. }
  destruct Hnone as [Hrev _].
  rewrite unmount_revokes_first_render, Hrev.
  unfold w at 1. rewrite run_unmountUploads. cbn [revoked pageLoad].
  rewrite app_nil_r. split; [reflexivity|]. split; [reflexivity|].
  unfold unmount, browser. cbn [env].
  destruct (revoke_all_frame (unmountUploads (ui w)) (env w)) as (Hl & Ht & _).
  now split.
Qed.

Example unmount_misses_the_session_uploads :
  let w := run [PickFiles [mkPicked (Build_File (lit "a.mp3") 10) (lit "0.a") 5]]
               (mount sample_loaded [] 0 (pageLoad ∅ true)) in
  map Upload.url (voiceUploads (ui w)) = [blobURL 0; lit "blob:9"]
  /\ revoked (env (unmount w)) = [lit "blob:9"].
Proof. split; reflexivity. Qed.

(** ** Operations that change nothing *)

Lemma filter_all {A} (P : A -> Prop) `{!forall x, Decision (P x)} (l : list A) :
  Forall P l -> filter P l = l.
Proof.
  induction 1 as [|x l Hx _ IH]; [reflexivity|].
  rewrite filter_cons, decide_True by exact Hx. now rewrite IH.
Qed.

Lemma run_written_through (voice0 : list Upload.t) (journal0 : list Entry.t)
  (now : Z) (items : gmap jsstring jsstring) (speech : bool)
  (events : list Event) :
  written_through items
    (run events (mount voice0 journal0 now (pageLoad items speech))).
Proof. apply run_invariant; [apply step_written_through|reflexivity]. Qed.

(** X14.  In every state of a session started from a page load, deleting a
    clip or a letter whose id no record has, and picking no file, leave the
    component and the browser exactly as they are: the store already holds
    the text that the effect writes again. *)
Theorem absent_ids_and_empty_picks_change_nothing (voice0 : list Upload.t)
  (journal0 : list Entry.t) (now : Z) (items : gmap jsstring jsstring)
  (speech : bool) (events : list Event) (id : jsstring) :
  let w := run events (mount voice0 journal0 now (pageLoad items speech)) in
  (Forall (fun v => Upload.id v <> id) (voiceUploads (ui w)) ->
   step w (DeleteClip id) = w)
  /\ (Forall (fun e => Entry.id e <> id) (journalEntries (ui w)) ->
      step w (DeleteLetter id) = w)
  /\ step w (PickFiles []) = w.
Proof.
  intros w.
  pose proof (run_written_through voice0 journal0 now items speech events) as Hwt.
  fold w in Hwt. clearbody w. fields w. unfold written_through in Hwt.
  cbn [step]. unfold removeUpload, deleteJournalEntry, handleVoiceUpload.
  cbn [makeItems]. evaluate. split; [|split].
  - intros Hall. rewrite (filter_all _ _ Hall). do 2 f_equal.
    rewrite Hwt at 1. rewrite store_voice. now symmetry.
  - intros Hall. rewrite (filter_all _ _ Hall). do 2 f_equal.
    rewrite Hwt at 1. rewrite insert_insert_eq. now symmetry.
  - do 2 f_equal. cbn [app]. rewrite Hwt at 1. rewrite store_voice.
    now symmetry.
Qed.

Lemma absent_ids_and_empty_picks_change_nothing_witness :
  let w := run sample_events (mount sample_loaded [] 0 (pageLoad ∅ true)) in
  step w (DeleteClip (lit "voice_i")) = w
  /\ step w (DeleteLetter (lit "j_none")) = w.
Proof.
  intros w.
  destruct (absent_ids_and_empty_picks_change_nothing sample_loaded [] 0 ∅ true
              sample_events (lit "voice_i")) as (Hclip & _).
  destruct (absent_ids_and_empty_picks_change_nothing sample_loaded [] 0 ∅ true
              sample_events (lit "j_none")) as (_ & Hletter & _).
  split.
  - apply Hclip. apply (bool_decide_unpack _). vm_compute. exact I.
  - apply Hletter. apply (bool_decide_unpack _). vm_compute. exact I.
Defined.

(** ** The chat log along a session *)

Lemma replyTimeout_eq (i : N) (pick : nat) (r36 : jsstring) (now : Z)
  (input reply : jsstring) (w : World) :
  timers (env w) !! i = Some (Timeout input) ->
  generateSoulReply (trim input) pick = Normal reply ->
  replyTimeout i pick r36 now w
  = browser (speakText reply)
      (setChatMessages
         (fun s => s ++ [Message.mk (IdString (uid (lit "m") r36)) soul reply now])
         (browser (fun b => set_timers (delete i (timers b)) b) w)).
Proof. intros Ht Hr. unfold replyTimeout. now rewrite Ht, Hr. Qed.

Lemma reply_keeps_other_timers (k k' : N) (reply : jsstring) (m : Message.t)
  (x : World) :
  k' <> k ->
  timers
    (env (browser (speakText reply)
            (setChatMessages (fun s => s ++ [m])
               (browser (fun b => set_timers (delete k (timers b)) b) x))))
  !! k' = timers (env x) !! k'.
Proof.
  intros Hk. fields x. setters. unfold speakText.
  destruct speechSynthesis0; setters; now rewrite lookup_delete_ne.
Qed.

(** X15.  Replies are appended in the order in which their timeouts come
    due, not in the order of sending: with two replies pending, whichever
    callback runs first puts its message first, and both messages are in the
    log either way. *)
Theorem replies_arrive_in_firing_order (i j : N) (pi pj : nat)
  (ri rj a b reply_a reply_b : jsstring) (ni nj : Z) (w : World) :
  i <> j ->
  timers (env w) !! i = Some (Timeout a) ->
  timers (env w) !! j = Some (Timeout b) ->
  generateSoulReply (trim a) pi = Normal reply_a ->
  generateSoulReply (trim b) pj = Normal reply_b ->
  let ma := Message.mk (IdString (uid (lit "m") ri)) soul reply_a ni in
  let mb := Message.mk (IdString (uid (lit "m") rj)) soul reply_b nj in
  chatMessages (ui (replyTimeout j pj rj nj (replyTimeout i pi ri ni w)))
  = chatMessages (ui w) ++ [ma; mb]
  /\ chatMessages (ui (replyTimeout i pi ri ni (replyTimeout j pj rj nj w)))
     = chatMessages (ui w) ++ [mb; ma].
Proof.
  intros Hij Hi Hj Ha Hb ma mb.
  split.
  - rewrite (replyTimeout_eq i pi ri ni a reply_a w Hi Ha).
    erewrite (replyTimeout_eq j pj rj nj b reply_b); [| |exact Hb].
    + fields w. setters. unfold speakText.
      destruct speechSynthesis0; setters; now rewrite <- app_assoc.
    + rewrite reply_keeps_other_timers by congruence. exact Hj.
  - rewrite (replyTimeout_eq j pj rj nj b reply_b w Hj Hb).
    erewrite (replyTimeout_eq i pi ri ni a reply_a); [| |exact Ha].
    + fields w. setters. unfold speakText.
      destruct speechSynthesis0; setters; now rewrite <- app_assoc.
    + rewrite reply_keeps_other_timers by congruence. exact Hi.
Qed.

Lemma replies_arrive_in_firing_order_witness :
  let w := run [TypeChat (lit "one"); Send (lit "0.a") 1;
                TypeChat (lit "two"); Send (lit "0.b") 2]
               (mount [] [] 0 (pageLoad ∅ true)) in
  map Message.text
    (chatMessages (ui (replyTimeout 1 1 (lit "0.c") 4
                         (replyTimeout 2 0 (lit "0.d") 3 w))))
  = map Message.text (chatMessages (ui w))
    ++ [lit "I remember when you told me: " ++ [0x22%N] ++ lit "two"
          ++ [0x22%N] ++ lit ". That made me smile.";
        lit "Hearing about this warms me. Tell me more " ++ [EM_DASH]
          ++ lit " what happened next?"].
Proof.
  intros w.
  assert (Hij : (1 <> 2)%N) by discriminate.
  assert (Hi : timers (env w) !! 1%N = Some (Timeout (lit "one")))
    by reflexivity.
  assert (Hj : timers (env w) !! 2%N = Some (Timeout (lit "two")))
    by reflexivity.
  destruct (replies_arrive_in_firing_order 1 2 1 0 (lit "0.c") (lit "0.d")
              (lit "one") (lit "two") _ _ 4 3 w Hij Hi Hj eq_refl eq_refl)
    as [_ Hrev].
  rewrite Hrev, map_app. reflexivity.
Defined.

(** X16.  Clearing the log does not cancel a reply that is pending: when its
    timeout comes due after the Clear button, the reply is appended to the
    emptied log; and the callback of a timeout runs once, a second run of it
    changes nothing. *)
Theorem clear_keeps_pending_reply_fires_once (i : N) (pick pick' : nat)
  (r36 r36' input reply : jsstring) (now now' : Z) (w : World) :
  timers (env w) !! i = Some (Timeout input) ->
  generateSoulReply (trim input) pick = Normal reply ->
  let w1 := replyTimeout i pick r36 now (step w ClearChat) in
  chatMessages (ui w1)
  = [Message.mk (IdString (uid (lit "m") r36)) soul reply now]
  /\ replyTimeout i pick' r36' now' w1 = w1.
Proof.
  intros Ht Hr w1. subst w1.
  rewrite (replyTimeout_eq i pick r36 now input reply (step w ClearChat));
    [|exact Ht|exact Hr].
  fields w. cbn [step]. setters. unfold speakText, replyTimeout.
  destruct speechSynthesis0; setters; rewrite lookup_delete_eq; now split.
Qed.

Lemma clear_keeps_pending_reply_fires_once_witness :
  let w := run [TypeChat (lit "hello"); Send (lit "0.a") 1]
               (mount [] [] 0 (pageLoad ∅ true)) in
  map Message.text
    (chatMessages (ui (replyTimeout 1 2 (lit "0.b") 2 (step w ClearChat))))
  = [lit "I'm here with you. Breathe with me. Imagine us sitting quietly, listening together."].
Proof.
  intros w.
  assert (Hi : timers (env w) !! 1%N = Some (Timeout (lit "hello")))
    by reflexivity.
  destruct (clear_keeps_pending_reply_fires_once 1 2 0 (lit "0.b") (lit "0.c")
              (lit "hello") _ 2 3 w Hi eq_refl) as [Hlog _].
  now rewrite Hlog.
Defined.

Lemma generateSoulReply_nonempty (userText reply : jsstring) (pick : nat) :
  generateSoulReply userText pick = Normal reply -> reply <> [].
Proof.
  unfold generateSoulReply.
  destruct pick as [|[|[|[|pick]]]]; cbn; intros H; try discriminate H;
    injection H as <-; first [apply lit_app_nonempty | discriminate].
Qed.

Lemma step_chat_log (w : World) (e : Event) :
  (e = ClearChat /\ chatMessages (ui (step w e)) = [])
  \/ exists tail,
       chatMessages (ui (step w e)) = chatMessages (ui w) ++ tail
       /\ length tail <= 1
       /\ Forall (fun m => Message.text m <> []) tail.
Proof.
  destruct e; cbn [step]; try (left; split; reflexivity); right.
  1: { rewrite handleVoiceUpload_eq. exists []. rewrite app_nil_r.
       split; [reflexivity|]. split; [cbn; lia|constructor]. }
  all: fields w; unfold_handlers; handler_steps;
    first [ exists []; rewrite app_nil_r; split; [reflexivity|];
            split; [cbn; lia|constructor]
          | eexists [_]; split; [reflexivity|]; split; [cbn; lia|];
            constructor; [cbn|constructor];
            first [ discriminate
                  | eapply generateSoulReply_nonempty; eassumption
                  | apply lit_app_nonempty ] ].
Qed.

(** X17.  The chat log is append-only between two uses of Clear: along events
    none of which is Clear, the log keeps the messages it had, in their
    order, and gains at most one message per event at its end; no message of
    it has an empty text. *)
Theorem chat_log_append_only (voice0 : list Upload.t) (journal0 : list Entry.t)
  (now : Z) (b : Browser) (events later : list Event) :
  Forall (fun e => e <> ClearChat) later ->
  let w := run events (mount voice0 journal0 now b) in
  (exists tail,
     chatMessages (ui (run later w)) = chatMessages (ui w) ++ tail
     /\ length tail <= length later)
  /\ Forall (fun m => Message.text m <> []) (chatMessages (ui w)).
Proof.
  intros Hlater w. split.
  - generalize w. clear w. induction Hlater as [|e later He _ IH]; intros w.
    + exists []. rewrite app_nil_r. split; [reflexivity|cbn; lia].
    + change (run (e :: later) w) with (run later (step w e)).
      destruct (IH (step w e)) as (tail & Htail & Hlen).
      destruct (step_chat_log w e) as [[Hc _]|(t1 & Ht1 & Hl1 & _)];
        [contradiction|].
      exists (t1 ++ tail). rewrite Htail, Ht1, <- app_assoc.
      split; [reflexivity|]. rewrite length_app. cbn [length]. lia.
  - apply (run_invariant
             (fun w => Forall (fun m => Message.text m <> []) (chatMessages (ui w)))).
    + intros w' e Hw'.
      destruct (step_chat_log w' e) as [[_ ->]|(t1 & -> & _ & Ht1)];
        [constructor|]. apply Forall_app. now split.
    + unfold mount. evaluate. constructor; [|constructor].
      cbn [Message.text]. apply lit_app_nonempty.
Qed.

Lemma chat_log_append_only_witness :
  exists tail,
    chatMessages
      (ui (run [TypeChat (lit "hello"); Send (lit "0.a") 1]
             (run [Start] (mount [] [] 0 (pageLoad ∅ true)))))
    = chatMessages (ui (run [Start] (mount [] [] 0 (pageLoad ∅ true)))) ++ tail
    /\ length tail <= 2.
Proof.
  apply (chat_log_append_only [] [] 0 (pageLoad ∅ true) [Start]
           [TypeChat (lit "hello"); Send (lit "0.a") 1]).
  repeat constructor; discriminate.
Defined.

(** ** The journal along a session *)

Lemma trimStart_head (s : jsstring) :
  trimStart s = []
  \/ exists c t, trimStart s = c :: t /\ isWhiteSpace c = false.
Proof.
  induction s as [|c s IH]; [now left|]. cbn [trimStart].
  destruct (isWhiteSpace c) eqn:Hc; [exact IH|]. right. now exists c, s.
Qed.

Lemma trimStart_fixed (c : N) (t : jsstring) :
  isWhiteSpace c = false -> trimStart (c :: t) = c :: t.
Proof. intros Hc. cbn [trimStart]. now rewrite Hc. Qed.

Lemma trimStart_idempotent (s : jsstring) :
  trimStart (trimStart s) = trimStart s.
Proof.
  destruct (trimStart_head s) as [-> | (c & t & -> & Hc)]; [reflexivity|].
  now apply trimStart_fixed.
Qed.

Lemma trimStart_snoc (l : jsstring) (c : N) :
  isWhiteSpace c = false -> exists k, trimStart (l ++ [c]) = k ++ [c].
Proof.
  intros Hc. induction l as [|x l IH].
  - exists []. now apply trimStart_fixed.
  - cbn [app trimStart]. destruct (isWhiteSpace x); [exact IH|].
    now exists (x :: l).
Qed.

Lemma trim_idempotent (s : jsstring) : trim (trim s) = trim s.
Proof.
  unfold trim.
  assert (Hfix : trimStart (trimEnd (trimStart s)) = trimEnd (trimStart s)).
  { destruct (trimStart_head s) as [-> | (c & t & -> & Hc)]; [reflexivity|].
    unfold trimEnd. cbn [rev].
    destruct (trimStart_snoc (rev t) c Hc) as (k & ->).
    rewrite rev_app_distr. cbn [rev app]. now apply trimStart_fixed. }
  rewrite Hfix. unfold trimEnd. rewrite rev_involutive.
  now rewrite trimStart_idempotent.
Qed.

(** X18.  Every letter that a session adds has a title and a body that are
    non-empty and trimmed; if the loaded letters are so, all letters are so
    in every state of the session. *)
Theorem letters_nonempty_and_trimmed (voice0 : list Upload.t)
  (journal0 : list Entry.t) (now : Z) (b : Browser) (events : list Event) :
  let good := fun e => (Entry.title e <> [] /\ trim (Entry.title e) = Entry.title e)
                       /\ (Entry.body e <> [] /\ trim (Entry.body e) = Entry.body e) in
  Forall good journal0 ->
  Forall good (journalEntries (ui (run events (mount voice0 journal0 now b)))).
Proof.
  intros good Hloaded.
  apply (run_invariant (fun w => Forall good (journalEntries (ui w))));
    [|exact Hloaded].
  intros w e Hw. destruct e; cbn [step]; try exact Hw.
  1: { rewrite handleVoiceUpload_eq. exact Hw. }
  all: fields w; unfold_handlers; handler_steps; try exact Hw.
  - constructor; [|exact Hw]. subst good. cbn [Entry.title Entry.body].
    repeat match goal with H : trim _ = _ :: _ |- _ => rewrite <- H; revert H end.
    intros. rewrite !trim_idempotent. repeat split; congruence.
  - apply Forall_forall. intros x Hx. apply list_elem_of_filter in Hx as [_ Hx].
    rewrite Forall_forall in Hw. now apply Hw.
Qed.

Lemma letters_nonempty_and_trimmed_witness :
  Forall (fun e => (Entry.title e <> [] /\ trim (Entry.title e) = Entry.title e)
                   /\ (Entry.body e <> [] /\ trim (Entry.body e) = Entry.body e))
    (journalEntries
       (ui (run [TypeTitle (lit "  Hi "); TypeBody (lit " dear you  ");
                 SaveLetter (lit "0.k") 3]
              (mount [] [] 0 (pageLoad ∅ true))))).
Proof.
  apply (letters_nonempty_and_trimmed [] [] 0 (pageLoad ∅ true)
           [TypeTitle (lit "  Hi "); TypeBody (lit " dear you  ");
            SaveLetter (lit "0.k") 3]).
  constructor.
Defined.

(** ** Story mode *)




(** ** What is written is read back *)

Lemma hexValue_hexDigit (x : N) : (x < 16)%N -> hexValue (hexDigit x) = Some x.
Proof.
  intros Hx. unfold hexValue, hexDigit, isDigit.
  destruct (N.ltb_spec x 10).
  - replace ((0x30 <=? 0x30 + x) && (0x30 + x <=? 0x39))%N with true.
    + f_equal. lia.
    + symmetry. apply andb_true_intro. split; apply N.leb_le; lia.
  - replace ((0x30 <=? 0x61 + (x - 10)) && (0x61 + (x - 10) <=? 0x39))%N
      with false.
    + replace ((0x61 <=? 0x61 + (x - 10)) && (0x61 + (x - 10) <=? 0x66))%N
        with true.
      * f_equal. lia.
      * symmetry. apply andb_true_intro. split; apply N.leb_le; lia.
    + symmetry. apply andb_false_intro2. apply N.leb_gt. lia.
Qed.

Lemma parseChars_hex4 (c : N) (rest acc : jsstring) :
  (c < 65536)%N ->
  parseChars (lit "\u" ++ hex4 c ++ rest) acc = parseChars rest (c :: acc).
Proof.
  intros Hc. unfold hex4. cbn [lit list_ascii_of_string map app].
  change (N_of_ascii "\") with 0x5C%N. change (N_of_ascii "u") with 0x75%N.
  cbn [parseChars]. change (0x5C =? 0x22)%N with false.
  change (0x5C =? 0x5C)%N with true. change (0x75 =? 0x75)%N with true.
  cbv iota.
  rewrite !hexValue_hexDigit by (apply N.mod_lt; discriminate).
  f_equal. f_equal. zify. Z.to_euclidean_division_equations. lia.
Qed.

Lemma parseChars_raw (c : N) (rest acc : jsstring) :
  (c =? 0x22)%N = false -> (c =? 0x5C)%N = false -> (c <? 0x20)%N = false ->
  parseChars (c :: rest) acc = parseChars rest (c :: acc).
Proof. intros H1 H2 H3. cbn [parseChars]. now rewrite H1, H2, H3. Qed.

Lemma parseChars_quoteUnit (c : N) (rest acc : jsstring) :
  parseChars (quoteUnit c ++ rest) acc = parseChars rest (c :: acc).
Proof.
  unfold quoteUnit.
  destruct (N.eqb_spec c 0x22) as [->|H22]; [reflexivity|].
  destruct (N.eqb_spec c 0x5C) as [->|H5C]; [reflexivity|].
  destruct (N.eqb_spec c 8) as [->|H8]; [reflexivity|].
  destruct (N.eqb_spec c 9) as [->|H9]; [reflexivity|].
  destruct (N.eqb_spec c 10) as [->|H10]; [reflexivity|].
  destruct (N.eqb_spec c 12) as [->|H12]; [reflexivity|].
  destruct (N.eqb_spec c 13) as [->|H13]; [reflexivity|].
  destruct ((c <? 0x20) || (0xD800 <=? c) && (c <=? 0xDFFF))%N eqn:Hesc.
  - rewrite <- app_assoc. apply parseChars_hex4.
    apply orb_prop in Hesc as [Hlow|Hsur].
    + apply N.ltb_lt in Hlow. lia.
    + apply andb_prop in Hsur as [_ Hhi]. apply N.leb_le in Hhi. lia.
  - apply orb_false_elim in Hesc as [Hlow _].
    cbn [app]. apply parseChars_raw; [| |exact Hlow]; now apply N.eqb_neq.
Qed.

Lemma parseChars_surrogate (c : N) (rest acc : jsstring) :
  (0xD800 <=? c)%N = true ->
  parseChars (c :: rest) acc = parseChars rest (c :: acc).
Proof.
  intros Hc. apply N.leb_le in Hc.
  apply parseChars_raw; [apply N.eqb_neq|apply N.eqb_neq|apply N.ltb_ge]; lia.
Qed.

Lemma parseChars_quoteUnits (s rest acc : jsstring) :
  parseChars (quoteUnits s ++ 0x22%N :: rest) acc = Some (rev acc ++ s, rest).
Proof.
  remember (length s) as n eqn:Hn. revert s acc Hn.
  induction n as [n IH] using lt_wf_ind. intros s acc ->.
  destruct s as [|c [|d s']].
  - cbn. now rewrite app_nil_r.
  - cbn [quoteUnits]. rewrite parseChars_quoteUnit. cbn.
    reflexivity.
  - change (quoteUnits (c :: d :: s'))
      with (if isLeadSurrogate c && isTrailSurrogate d
            then c :: d :: quoteUnits s'
            else quoteUnit c ++ quoteUnits (d :: s')).
    destruct (isLeadSurrogate c && isTrailSurrogate d) eqn:Hpair.
    + apply andb_prop in Hpair as [Hc Hd].
      unfold isLeadSurrogate in Hc. unfold isTrailSurrogate in Hd.
      apply andb_prop in Hc as [Hc _]. apply andb_prop in Hd as [Hd _].
      cbn [app]. rewrite parseChars_surrogate by exact Hc.
      rewrite parseChars_surrogate
        by (apply N.leb_le; apply N.leb_le in Hd; lia).
      rewrite (IH (length s')) by (cbn; lia || reflexivity).
      cbn [rev]. now rewrite <- !app_assoc.
    + rewrite <- app_assoc, parseChars_quoteUnit.
      rewrite (IH (length (d :: s'))) by (cbn; lia || reflexivity).
      cbn [rev]. now rewrite <- !app_assoc.
Qed.

Lemma parseChars_quote (s rest : jsstring) :
  exists text, quote s ++ rest = 0x22%N :: text
               /\ parseChars text [] = Some (s, rest).
Proof.
  exists (quoteUnits s ++ 0x22%N :: rest). split.
  - unfold quote. cbn [app]. now rewrite <- app_assoc.
  - apply parseChars_quoteUnits.
Qed.

Lemma JSValue_nested_ind (P : JSValue -> Prop) :
  P JNull -> (forall b, P (JBool b)) -> (forall lexeme, P (JNumber lexeme)) ->
  (forall s, P (JString s)) ->
  (forall items, Forall P items -> P (JArray items)) ->
  (forall fields, Forall (fun kx => P (snd kx)) fields -> P (JObject fields)) ->
  forall v, P v.
Proof.
  intros Hnull Hbool Hnum Hstr Harr Hobj. fix IH 1.
  intros [ |b|lexeme|s|items|fields].
  - exact Hnull.
  - apply Hbool.
  - apply Hnum.
  - apply Hstr.
  - apply Harr. induction items as [|x items IHitems]; constructor.
    + apply IH.
    + exact IHitems.
  - apply Hobj. induction fields as [|[k x] fields IHfields]; constructor.
    + apply IH.
    + exact IHfields.
Qed.

Lemma parse_more_fuel (n : nat) :
  (forall s r, parseValue n s = Some r -> parseValue (S n) s = Some r)
  /\ (forall s acc r,
        parseElements n s acc = Some r -> parseElements (S n) s acc = Some r)
  /\ (forall s acc r,
        parseMembers n s acc = Some r -> parseMembers (S n) s acc = Some r).
Proof.
  induction n as [|n (IHv & IHe & IHm)]; [repeat split; discriminate|].
  split; [|split].
  - intros s r. rewrite (parseValue_eq (S n)), (parseValue_eq n).
    destruct (skipSpace s) as [|c rest]; [discriminate|].
    destruct (c =? 0x7B)%N.
    { destruct (skipSpace rest) as [|c' rest']; [discriminate|].
      destruct (c' =? 0x7D)%N; [trivial|]. apply IHm. }
    destruct (c =? 0x5B)%N.
    { destruct (skipSpace rest) as [|c' rest']; [discriminate|].
      destruct (c' =? 0x5D)%N; [trivial|]. apply IHe. }
    trivial.
  - intros s acc r. rewrite (parseElements_eq (S n)), (parseElements_eq n).
    destruct (parseValue n s) as [[v t]|] eqn:Hv; [|discriminate].
    rewrite (IHv _ _ Hv).
    destruct (skipSpace t) as [|c t']; [discriminate|].
    destruct (c =? 0x2C)%N; [apply IHe|trivial].
  - intros s acc r. rewrite (parseMembers_eq (S n)), (parseMembers_eq n).
    destruct (skipSpace s) as [|q s1]; [discriminate|].
    destruct (q =? 0x22)%N; [|discriminate].
    destruct (parseChars s1 []) as [[k s2]|]; [|discriminate].
    destruct (skipSpace s2) as [|colon s3]; [discriminate|].
    destruct (colon =? 0x3A)%N; [|discriminate].
    destruct (parseValue n s3) as [[v t]|] eqn:Hv; [|discriminate].
    rewrite (IHv _ _ Hv).
    destruct (skipSpace t) as [|c t']; [discriminate|].
    destruct (c =? 0x2C)%N; [apply IHm|trivial].
Qed.

Lemma parseValue_fuel_le (n m : nat) (s : jsstring) (r : JSValue * jsstring) :
  n <= m -> parseValue n s = Some r -> parseValue m s = Some r.
Proof.
  induction 1 as [|m _ IH]; [trivial|].
  intros H. apply parse_more_fuel, IH, H.
Qed.

Lemma parseElements_fuel_le (n m : nat) (s : jsstring) (acc : list JSValue)
  (r : JSValue * jsstring) :
  n <= m -> parseElements n s acc = Some r -> parseElements m s acc = Some r.
Proof.
  induction 1 as [|m _ IH]; [trivial|].
  intros H. apply parse_more_fuel, IH, H.
Qed.

Lemma parseMembers_fuel_le (n m : nat) (s : jsstring)
  (acc : list (jsstring * JSValue)) (r : JSValue * jsstring) :
  n <= m -> parseMembers n s acc = Some r -> parseMembers m s acc = Some r.
Proof.
  induction 1 as [|m _ IH]; [trivial|].
  intros H. apply parse_more_fuel, IH, H.
Qed.

Lemma lit_cons (c : ascii) (s : string) :
  lit (String c s) = N_of_ascii c :: lit s.
Proof. reflexivity. Qed.

Lemma delimited_no_digit (rest : jsstring) :
  delimited rest = true -> takeDigits rest = ([], rest).
Proof.
  destruct rest as [|c rest]; [reflexivity|]. cbn [delimited takeDigits].
  intros H. apply negb_true_iff in H.
  apply orb_false_elim in H as [H _]. apply orb_false_elim in H as [H _].
  apply orb_false_elim in H as [H _]. now rewrite H.
Qed.

Lemma takeDigits_uint (d : Decimal.uint) (rest : jsstring) :
  delimited rest = true ->
  takeDigits (lit (NilEmpty.string_of_uint d) ++ rest)
  = (lit (NilEmpty.string_of_uint d), rest).
Proof.
  intros Hrest.
  induction d as [|d IH|d IH|d IH|d IH|d IH|d IH|d IH|d IH|d IH|d IH];
    cbn [NilEmpty.string_of_uint];
    [now apply delimited_no_digit|..];
    rewrite lit_cons; cbn [app takeDigits]; now rewrite IH.
Qed.

Lemma parseFrac_delimited (rest : jsstring) :
  delimited rest = true -> parseFrac rest = Some ([], rest).
Proof.
  destruct rest as [|c rest]; [reflexivity|]. cbn [delimited parseFrac].
  intros H. apply negb_true_iff in H.
  apply orb_false_elim in H as [H _]. apply orb_false_elim in H as [H _].
  apply orb_false_elim in H as [_ H]. now rewrite H.
Qed.

Lemma parseExp_delimited (rest : jsstring) :
  delimited rest = true -> parseExp rest = Some ([], rest).
Proof.
  destruct rest as [|c rest]; [reflexivity|]. cbn [delimited parseExp].
  intros H. apply negb_true_iff in H.
  apply orb_false_elim in H as [H HE]. apply orb_false_elim in H as [_ He].
  now rewrite He, HE.
Qed.

(** The decimal text of a positive number has a first digit, and it is not
    [0]. *)
Lemma to_uint_no_leading_zero (p : positive) :
  match Pos.to_uint p with
  | Decimal.Nil | Decimal.D0 _ => False
  | _ => True
  end.
Proof.
  pose proof (DecimalPos.Unsigned.to_uint_nonnil p) as Hnil.
  pose proof (DecimalPos.Unsigned.to_of (Pos.to_uint p)) as Hnorm.
  rewrite DecimalPos.Unsigned.of_to in Hnorm. cbn [N.to_uint] in Hnorm.
  destruct (Pos.to_uint p) as [|d|d|d|d|d|d|d|d|d|d] eqn:E; try exact I.
  - now apply Hnil.
  - pose proof (DecimalFacts.unorm_nzhead (Decimal.D0 d)) as Hhead.
    rewrite <- Hnorm in Hhead.
    assert (Decimal.nzhead (Decimal.D0 d) <> Decimal.Nil) as Hne.
    { intros Hz. unfold Decimal.unorm in Hnorm. rewrite Hz in Hnorm.
      apply (DecimalPos.Unsigned.to_uint_nonzero p). now rewrite E. }
    specialize (Hhead Hne).
    exact (DecimalFacts.nzhead_nonzero _ _ (eq_sym Hhead)).
Qed.

Lemma parseInt_positive (p : positive) (rest : jsstring) :
  delimited rest = true ->
  exists c t,
    lit (NilEmpty.string_of_uint (Pos.to_uint p)) = c :: t
    /\ isDigit c = true
    /\ parseInt (c :: t ++ rest) = Some (c :: t, rest).
Proof.
  intros Hrest. pose proof (to_uint_no_leading_zero p) as Hlead.
  destruct (Pos.to_uint p) as [|d|d|d|d|d|d|d|d|d|d]; try contradiction;
    cbn [NilEmpty.string_of_uint]; rewrite lit_cons;
    eexists _, _; (split; [reflexivity|]); (split; [reflexivity|]);
    cbn [parseInt];
    match goal with
    | |- context [(?c =? 48)%N] => change (c =? 48)%N with false
    end;
    match goal with
    | |- context [isDigit ?c] => change (isDigit c) with true
    end;
    cbv iota; now rewrite takeDigits_uint.
Qed.

Lemma parseNumber_decimal (z : Z) (rest : jsstring) :
  delimited rest = true ->
  exists c t,
    decimal z = c :: t
    /\ (c = 0x2D%N \/ isDigit c = true)
    /\ parseNumber (c :: t ++ rest) = Some (c :: t, rest).
Proof.
  intros Hrest. unfold decimal. destruct z as [|p|p]; cbn [Z.to_int].
  - exists 0x30%N, []. split; [reflexivity|]. split; [now right|].
    cbn [app]. unfold parseNumber. cbn [parseSign].
    change (0x30 =? 0x2D)%N with false. cbv iota. cbn [parseInt].
    change (0x30 =? 0x30)%N with true. cbv iota.
    now rewrite parseFrac_delimited, parseExp_delimited.
  - destruct (parseInt_positive p rest Hrest) as (c & t & Heq & Hc & Hint).
    exists c, t. cbn [NilEmpty.string_of_int]. split; [exact Heq|].
    split; [now right|].
    unfold parseNumber. cbn [parseSign].
    replace (c =? 0x2D)%N with false.
    + rewrite Hint, parseFrac_delimited, parseExp_delimited by exact Hrest.
      cbn [app]. now rewrite !app_nil_r.
    + symmetry. apply N.eqb_neq. intros ->. discriminate Hc.
  - destruct (parseInt_positive p rest Hrest) as (c & t & Heq & Hc & Hint).
    exists 0x2D%N, (c :: t). cbn [NilEmpty.string_of_int].
    split; [now rewrite lit_cons, Heq|]. split; [now left|].
    unfold parseNumber. cbn [parseSign app].
    change (0x2D =? 0x2D)%N with true. cbv iota.
    cbn [app] in Hint.
    rewrite Hint, parseFrac_delimited, parseExp_delimited by exact Hrest.
    cbn [app]. now rewrite !app_nil_r.
Qed.

Lemma skipSpace_plain (c : N) (s : jsstring) :
  isJSONSpace c = false -> skipSpace (c :: s) = c :: s.
Proof. intros H. cbn [skipSpace]. now rewrite H. Qed.

(** The first character of a number is no space and opens or closes nothing
    else. *)
Lemma number_start (c : N) :
  c = 0x2D%N \/ isDigit c = true ->
  isJSONSpace c = false
  /\ (c =? 0x7B)%N = false /\ (c =? 0x5B)%N = false /\ (c =? 0x22)%N = false
  /\ (c =? 0x74)%N = false /\ (c =? 0x66)%N = false /\ (c =? 0x6E)%N = false
  /\ (c =? 0x5D)%N = false /\ (c =? 0x7D)%N = false.
Proof.
  intros [->|H]; [repeat split|].
  unfold isDigit in H. apply andb_prop in H as [Hlo Hhi].
  apply N.leb_le in Hlo, Hhi. unfold isJSONSpace.
  assert (forall k, (k < 0x30 \/ 0x39 < k)%N -> (c =? k)%N = false) as Hk
    by (intros k Hk; apply N.eqb_neq; lia).
  rewrite !Hk by lia. repeat split.
Qed.

Lemma stringify_head (v : JSValue) :
  integral v ->
  exists c t, JSON_stringify v = c :: t
              /\ isJSONSpace c = false
              /\ (c =? 0x5D)%N = false /\ (c =? 0x7D)%N = false.
Proof.
  destruct v as [ |[|]|lexeme|s|items|fields]; intros Hv;
    try (eexists _, _; split; [reflexivity|repeat split]).
  destruct Hv as [z ->].
  destruct (parseNumber_decimal z [] eq_refl) as (c & t & Heq & Hc & _).
  destruct (number_start c Hc) as (H1 & _ & _ & _ & _ & _ & _ & H2 & H3).
  now exists c, t.
Qed.

Lemma joinComma_head (c : N) (t : jsstring) (ps : list jsstring) (r : jsstring) :
  exists t', joinComma ((c :: t) :: ps) ++ r = c :: t'.
Proof. destruct ps; cbn; eauto. Qed.

Lemma joinComma_cons (p q : jsstring) (ps : list jsstring) (r : jsstring) :
  joinComma (p :: q :: ps) ++ r = p ++ 0x2C%N :: joinComma (q :: ps) ++ r.
Proof.
  change (joinComma (p :: q :: ps)) with (p ++ [0x2C%N] ++ joinComma (q :: ps)).
  now rewrite <- !app_assoc.
Qed.

Lemma integral_items (items : list JSValue) :
  integral (JArray items) -> Forall integral items.
Proof.
  cbn [integral]. induction items as [|x items IH]; cbn [fold_right].
  - constructor.
  - intros [Hx Hitems]. constructor; auto.
Qed.

Lemma integral_fields (fields : list (jsstring * JSValue)) :
  integral (JObject fields) -> Forall (fun kx => integral (snd kx)) fields.
Proof.
  cbn [integral]. induction fields as [|kx fields IH]; cbn [fold_right].
  - constructor.
  - intros [Hx Hfields]. constructor; auto.
Qed.

Lemma parseElements_stringify (items : list JSValue) :
  Forall reads_back items -> items <> [] ->
  forall acc rest,
    exists n,
      parseElements n (joinComma (map JSON_stringify items) ++ 0x5D%N :: rest) acc
      = Some (JArray (rev acc ++ items), rest).
Proof.
  induction 1 as [|v items Hv Hitems IH]; [congruence|].
  intros _ acc rest. destruct items as [|v2 items].
  - cbn [map joinComma]. destruct (Hv (0x5D%N :: rest) eq_refl) as [n Hn].
    exists (S n). rewrite parseElements_eq, Hn.
    rewrite skipSpace_plain by reflexivity. reflexivity.
  - cbn [map]. rewrite joinComma_cons.
    change (JSON_stringify v2 :: map JSON_stringify items)
      with (map JSON_stringify (v2 :: items)).
    set (tail := joinComma (map JSON_stringify (v2 :: items)) ++ 0x5D%N :: rest).
    destruct (Hv (0x2C%N :: tail) eq_refl) as [n1 H1].
    destruct (IH ltac:(discriminate) (v :: acc) rest) as [n2 H2].
    fold tail in H2. cbn [rev] in H2. rewrite <- app_assoc in H2.
    exists (S (Nat.max n1 n2)). rewrite parseElements_eq.
    rewrite (parseValue_fuel_le n1 _ _ _ (Nat.le_max_l _ _) H1).
    rewrite skipSpace_plain by reflexivity.
    change (0x2C =? 0x2C)%N with true. cbv iota.
    exact (parseElements_fuel_le n2 _ _ _ _ (Nat.le_max_r _ _) H2).
Qed.

Lemma parseMember_text (k : jsstring) (x : JSValue) (r : jsstring) :
  exists text,
    (quote k ++ lit ":" ++ JSON_stringify x) ++ r = 0x22%N :: text
    /\ parseChars text [] = Some (k, 0x3A%N :: JSON_stringify x ++ r).
Proof.
  exists (quoteUnits k ++ 0x22%N :: 0x3A%N :: JSON_stringify x ++ r). split.
  - unfold quote. change (lit ":") with [0x3A%N].
    rewrite <- !app_assoc. reflexivity.
  - apply parseChars_quoteUnits.
Qed.

Lemma parseMembers_stringify (fields : list (jsstring * JSValue)) :
  Forall (fun kx => reads_back (snd kx)) fields -> fields <> [] ->
  forall acc rest,
    exists n,
      parseMembers n
        (joinComma (map (fun '(k, x) => quote k ++ lit ":" ++ JSON_stringify x)
                        fields)
         ++ 0x7D%N :: rest) acc
      = Some (JObject (rev acc ++ fields), rest).
Proof.
  induction 1 as [|[k v] fields Hv Hfields IH]; [congruence|].
  intros _ acc rest. cbn [snd] in Hv. destruct fields as [|kv2 fields].
  - cbn [map joinComma].
    destruct (parseMember_text k v (0x7D%N :: rest)) as (text & -> & Hk).
    destruct (Hv (0x7D%N :: rest) eq_refl) as [n Hn].
    exists (S n). rewrite parseMembers_eq.
    rewrite skipSpace_plain by reflexivity.
    change (0x22 =? 0x22)%N with true. cbv iota. rewrite Hk.
    rewrite skipSpace_plain by reflexivity.
    change (0x3A =? 0x3A)%N with true. cbv iota. rewrite Hn.
    rewrite skipSpace_plain by reflexivity. reflexivity.
  - pose (F := fun '(k, x) => quote k ++ lit ":" ++ JSON_stringify x).
    change (map _ ((k, v) :: kv2 :: fields))
      with ((quote k ++ lit ":" ++ JSON_stringify v) :: F kv2 :: map F fields).
    rewrite joinComma_cons.
    set (tail := joinComma (F kv2 :: map F fields) ++ 0x7D%N :: rest).
    destruct (parseMember_text k v (0x2C%N :: tail)) as (text & -> & Hk).
    destruct (Hv (0x2C%N :: tail) eq_refl) as [n1 H1].
    destruct (IH ltac:(discriminate) ((k, v) :: acc) rest) as [n2 H2].
    change (parseMembers n2 tail ((k, v) :: acc)
            = Some (JObject ((rev acc ++ [(k, v)]) ++ kv2 :: fields), rest))
      in H2.
    rewrite <- app_assoc in H2.
    exists (S (Nat.max n1 n2)). rewrite parseMembers_eq.
    rewrite skipSpace_plain by reflexivity.
    change (0x22 =? 0x22)%N with true. cbv iota. rewrite Hk.
    rewrite skipSpace_plain by reflexivity.
    change (0x3A =? 0x3A)%N with true. cbv iota.
    rewrite (parseValue_fuel_le n1 _ _ _ (Nat.le_max_l _ _) H1).
    rewrite skipSpace_plain by reflexivity.
    change (0x2C =? 0x2C)%N with true. cbv iota.
    exact (parseMembers_fuel_le n2 _ _ _ _ (Nat.le_max_r _ _) H2).
Qed.

Lemma members_head (k : jsstring) (v : JSValue)
  (fields : list (jsstring * JSValue)) (r : jsstring) :
  exists t',
    joinComma (map (fun '(k, x) => quote k ++ lit ":" ++ JSON_stringify x)
                   ((k, v) :: fields)) ++ r
    = 0x22%N :: t'.
Proof. cbn [map]. unfold quote at 1. cbn [app]. apply joinComma_head. Qed.

Lemma stringify_object (fields : list (jsstring * JSValue)) (rest : jsstring) :
  JSON_stringify (JObject fields) ++ rest
  = 0x7B%N
    :: joinComma (map (fun '(k, x) => quote k ++ lit ":" ++ JSON_stringify x)
                      fields)
    ++ 0x7D%N :: rest.
Proof.
  cbn [JSON_stringify]. change (lit "{") with [0x7B%N].
  change (lit "}") with [0x7D%N]. now rewrite <- !app_assoc.
Qed.

Lemma Forall_reads_back {A} (f : A -> JSValue) (l : list A) :
  Forall (fun a => integral (f a) -> reads_back (f a)) l ->
  Forall (fun a => integral (f a)) l ->
  Forall (fun a => reads_back (f a)) l.
Proof.
  induction 1 as [|a l Ha Hl IH]; intros Hint; constructor;
    inversion Hint; subst; auto.
Qed.

(** Every value of integers and strings is read back from its text. *)
Lemma parseValue_stringify (v : JSValue) : integral v -> reads_back v.
Proof.
  induction v as [ |b|lexeme|s|items IH|fields IH] using JSValue_nested_ind;
    intros Hv rest Hrest.
  - now exists 1%nat.
  - exists 1%nat. now destruct b.
  - destruct Hv as [z ->].
    destruct (parseNumber_decimal z rest Hrest) as (c & t & Heq & Hc & Hnum).
    destruct (number_start c Hc)
      as (Hsp & H7B & H5B & H22 & H74 & H66 & H6E & _ & _).
    exists 1%nat. cbn [JSON_stringify]. rewrite Heq. cbn [app].
    rewrite parseValue_eq, skipSpace_plain by exact Hsp.
    now rewrite H7B, H5B, H22, H74, H66, H6E, Hnum.
  - destruct (parseChars_quote s rest) as (text & Heq & Hs).
    exists 1%nat. cbn [JSON_stringify]. rewrite Heq.
    rewrite parseValue_eq, skipSpace_plain by reflexivity.
    change (0x22 =? 0x7B)%N with false. change (0x22 =? 0x5B)%N with false.
    change (0x22 =? 0x22)%N with true. cbv iota. now rewrite Hs.
  - apply integral_items in Hv.
    pose proof (Forall_reads_back (fun x => x) items IH Hv) as Hback.
    destruct items as [|v items]; [now exists 1%nat|].
    destruct (parseElements_stringify (v :: items) Hback ltac:(discriminate)
                [] rest) as [n Hn].
    assert (integral v) as Hhead by now inversion Hv.
    destruct (stringify_head v Hhead) as (c & t & Heq & Hsp & H5D & _).
    cbn [map] in Hn. rewrite Heq in Hn.
    exists (S n). cbn [JSON_stringify map]. rewrite Heq.
    change (lit "[") with [0x5B%N]. change (lit "]") with [0x5D%N].
    rewrite <- !app_assoc. cbn [app].
    destruct (joinComma_head c t (map JSON_stringify items) (0x5D%N :: rest))
      as [t' Ht'].
    rewrite Ht' in *.
    rewrite parseValue_eq, skipSpace_plain by reflexivity.
    change (0x5B =? 0x7B)%N with false. change (0x5B =? 0x5B)%N with true.
    cbv iota. rewrite skipSpace_plain by exact Hsp. rewrite H5D. exact Hn.
  - apply integral_fields in Hv.
    pose proof (Forall_reads_back snd fields IH Hv) as Hback.
    destruct fields as [|[k v] fields]; [now exists 1%nat|].
    destruct (parseMembers_stringify ((k, v) :: fields) Hback
                ltac:(discriminate) [] rest) as [n Hn].
    destruct (members_head k v fields (0x7D%N :: rest)) as [t' Ht'].
    rewrite Ht' in Hn.
    exists (S n). rewrite stringify_object, Ht'.
    rewrite parseValue_eq, skipSpace_plain by reflexivity.
    change (0x7B =? 0x7B)%N with true. cbv iota.
    rewrite skipSpace_plain by reflexivity.
    change (0x22 =? 0x7D)%N with false. cbv iota. exact Hn.
Qed.

(** [JSON.parse] reads back what [JSON.stringify] printed. *)
Lemma JSON_parse_stringify (v : JSValue) :
  integral v -> JSON_parse (JSON_stringify v) = Some v.
Proof.
  intros Hv. destruct (parseValue_stringify v Hv [] eq_refl) as [n Hn].
  rewrite app_nil_r in Hn. unfold JSON_parse.
  rewrite <- (JSON_parse_fuel (JSON_stringify v) n).
  rewrite (parseValue_fuel_le n (2 * length (JSON_stringify v) + 2 + n) _ _
             (Nat.le_add_l _ _) Hn).
  reflexivity.
Qed.

Lemma integral_uploads (uploads : list Upload.t) :
  integral (JArray (map Upload.toJSON uploads)).
Proof.
  induction uploads as [|u uploads IH]; [exact I|].
  split; [|exact IH]. cbn. eauto 10.
Qed.

Lemma integral_entries (entries : list Entry.t) :
  integral (JArray (map Entry.toJSON entries)).
Proof.
  induction entries as [|e entries IH]; [exact I|].
  split; [|exact IH]. cbn. eauto 10.
Qed.

Lemma load_written (items : gmap jsstring jsstring) (key : jsstring)
  (records : list JSValue) :
  integral (JArray records) ->
  items !! key = Some (JSON_stringify (JArray records)) ->
  load (Granted items) key = Normal (JArray records).
Proof.
  intros Hint Hkey. rewrite load_granted, Hkey.
  change (orElse (Some (JSON_stringify (JArray records))) (lit "[]"))
    with (JSON_stringify (JArray records)).
  now rewrite JSON_parse_stringify.
Qed.

(** X20.  Persistence round trip: in every state of a session started from
    a page load, what the initialisers of the next page load would read from
    the store is the JSON of the records on screen, clips and letters alike;
    the fallback to the empty list is not taken. *)
Theorem next_load_reads_the_records_on_screen (voice0 : list Upload.t)
  (journal0 : list Entry.t) (now : Z) (items : gmap jsstring jsstring)
  (speech : bool) (events : list Event) :
  initVoiceUploads
    (Granted (localStorage
                (env (run events
                        (mount voice0 journal0 now (pageLoad items speech))))))
  = Normal (JArray (map Upload.toJSON
                      (voiceUploads
                         (ui (run events
                                (mount voice0 journal0 now
                                   (pageLoad items speech)))))))
  /\ initJournalEntries
       (Granted (localStorage
                   (env (run events
                           (mount voice0 journal0 now (pageLoad items speech))))))
     = Normal (JArray (map Entry.toJSON
                         (journalEntries
                            (ui (run events
                                   (mount voice0 journal0 now
                                      (pageLoad items speech))))))).
Proof.
  pose proof (run_written_through voice0 journal0 now items speech events)
    as Hstore.
  set (w := run events _) in *. unfold written_through in Hstore.
  unfold initVoiceUploads, initJournalEntries. split.
  - apply load_written; [apply integral_uploads|].
    rewrite Hstore, lookup_insert_ne by (intros H; now apply keys_differ).
    apply lookup_insert_eq.
  - apply load_written; [apply integral_entries|].
    rewrite Hstore. apply lookup_insert_eq.
Qed.
